(** * SimpleChatModel: the chat transcript model of the Cody VS Code extension

    A shallow embedding of [SimpleChatModel] (the transcript class), of its
    serializer and of [getChatPanelTitle], followed by the properties of the
    transcript that the specification states.

    Conventions of the embedding
    - [undefined] / an absent property is [None]; [null] in the serialized
      interaction is [None] as well (the field is never [undefined] there).
    - A [number] used as an array index is a [Z].
    - A method that can [throw] is a function from the object's state to a
      completion (normal or thrown) and the state it leaves behind, so that
      what a failed call did to the transcript can be stated.
    - Turns are values in a list: no claim depends on two arrays sharing a
      turn object. Repo descriptors are JavaScript objects held by
      reference: they live in a store of cells, and the model keeps a
      reference to its own array. *)

From Stdlib Require Import ZArith Ascii String.
From stdpp Require Import gmap strings list.
From Equations Require Import Equations.

Local Open Scope string_scope.
Local Open Scope Z_scope.
Local Open Scope list_scope.

(** ** JavaScript array and string primitives used by the class *)

Module JS.

(** Truthiness of a [string | undefined]: only a non-empty string is truthy. *)
Definition truthy (s : option string) : bool :=
  match s with
  | Some s => negb (String.eqb s "")
  | None => false
  end.

(** [Array.prototype.at]: a negative index counts back from the end. *)
Definition at_ {A : Type} (l : list A) (index : Z) : option A :=
  let k := if index <? 0 then Z.of_nat (length l) + index else index in
  if k <? 0 then None else l !! Z.to_nat k.

(** [Array.prototype.pop]: the removed last element and the shorter array. *)
Definition pop {A : Type} (l : list A) : option A * list A :=
  (last l, removelast l).

(** [Array.prototype.push] of one element. *)
Definition push {A : Type} (l : list A) (x : A) : list A := l ++ [x].

(** [Array.prototype.splice(start)] with one argument: everything from the
    (relative) start to the end is removed; what remains is returned. *)
Definition splice_start {A : Type} (l : list A) (start : Z) : nat :=
  let len := Z.of_nat (length l) in
  Z.to_nat (if start <? 0 then Z.max (len + start) 0 else Z.min start len).

Definition splice {A : Type} (l : list A) (start : Z) : list A :=
  take (splice_start l start) l.

(** [Array.prototype.findLastIndex]: visits the indices [k-1], ..., [0] and
    returns the first one whose element satisfies [p], or [-1]. *)
Fixpoint findLastIndex_below {A : Type} (p : A -> bool) (l : list A) (k : nat) : Z :=
  match k with
  | O => -1
  | S k' =>
      match l !! k' with
      | Some x => if p x then Z.of_nat k' else findLastIndex_below p l k'
      | None => findLastIndex_below p l k'
      end
  end.

Definition findLastIndex {A : Type} (p : A -> bool) (l : list A) : Z :=
  findLastIndex_below p l (length l).

(** lodash [findLast]: the element found by scanning from the end. *)
Fixpoint findLast_below {A : Type} (p : A -> bool) (l : list A) (k : nat) : option A :=
  match k with
  | O => None
  | S k' =>
      match l !! k' with
      | Some x => if p x then Some x else findLast_below p l k'
      | None => findLast_below p l k'
      end
  end.

Definition findLast {A : Type} (p : A -> bool) (l : list A) : option A :=
  findLast_below p l (length l).

End JS.

(** ** chat-helpers: the title of a chat panel

    A string is the sequence of its UTF-16 code units; the embedding carries
    the code units below 256, one [ascii] each. *)

Module ChatHelpers.

Local Open Scope char_scope.

(** The line terminators [.] does not match (those below 256). *)
Definition isLineTerminator (c : ascii) : bool :=
  Ascii.eqb c "010" || Ascii.eqb c "013".

(** What [String.prototype.trim] removes (white space and line terminators
    below 256: TAB, LF, VT, FF, CR, SP, NBSP). *)
Definition isWhiteSpace (c : ascii) : bool :=
  let n := N_of_ascii c in
  ((9 <=? n) && (n <=? 13) || (n =? 32) || (n =? 160))%N.

Fixpoint trimStart (l : list ascii) : list ascii :=
  match l with
  | [] => []
  | c :: r => if isWhiteSpace c then trimStart r else l
  end.

Definition trimEnd (l : list ascii) : list ascii := rev (trimStart (rev l)).

Definition trim (l : list ascii) : list ascii := trimEnd (trimStart l).

(** The second group and the closing parenthesis, [(.+?)\)]: after the
    group's first character, the shortest run that reaches a [)]. Returns
    what follows the match. *)
Fixpoint scanClose (l : list ascii) : option (list ascii) :=
  match l with
  | [] => None
  | c :: r =>
      if Ascii.eqb c ")" then Some r
      else if isLineTerminator c then None
      else scanClose r
  end.

Definition matchGroup2 (l : list ascii) : option (list ascii) :=
  match l with
  | [] => None
  | c :: r => if isLineTerminator c then None else scanClose r
  end.

(** [_]\(] and the second group, at the head of [l]. *)
Definition matchTail (l : list ascii) : option (list ascii) :=
  match l with
  | c1 :: c2 :: c3 :: r =>
      if Ascii.eqb c1 "_" && Ascii.eqb c2 "]" && Ascii.eqb c3 "("
      then matchGroup2 r else None
  | _ => None
  end.

(** The first group, [(.+?)]: [group] holds (reversed) the characters
    taken so far; the group is extended one character at a time until the
    rest of the pattern matches. *)
Fixpoint scanGroup1 (group : list ascii) (l : list ascii) : option (list ascii * list ascii) :=
  match l with
  | [] => None
  | c :: r =>
      match matchTail l with
      | Some rest => Some (rev group, rest)
      | None => if isLineTerminator c then None else scanGroup1 (c :: group) r
      end
  end.

(** A match of [/\[_(.+?)_]\((.+?)\)/] at the head of [l]: the first
    group and what follows the match. *)
Definition matchAt (l : list ascii) : option (list ascii * list ascii) :=
  match l with
  | c1 :: c2 :: c :: r =>
      if Ascii.eqb c1 "[" && Ascii.eqb c2 "_" && negb (isLineTerminator c)
      then scanGroup1 [c] r else None
  | _ => None
  end.

(** [s.replaceAll(MARKDOWN_LINK_REGEX, '$1')]: matches are searched from left
    to right, each is replaced by its first group, the search resumes after
    the match. *)
Equations replaceAll_links (l : list ascii) : list ascii by wf (length l) lt :=
  replaceAll_links [] := [];
  replaceAll_links (c :: r) with Equations.Prop.Logic.inspect (matchAt (c :: r)) => {
    | exist _ (Some (g, rest)) H := g ++ replaceAll_links rest;
    | exist _ None _ := c :: replaceAll_links r }.
Next Obligation.
  (* a match consumes at least one character *)
  intros. clear replaceAll_links.
  assert (Hclose : forall l rest',
             scanClose l = Some rest' -> (length rest' < length l)%nat).
  { induction l as [|a l IH]; intros rest'; simpl; [discriminate|].
    destruct (Ascii.eqb a ")"); [intros [= <-]; lia|].
    destruct (isLineTerminator a); [discriminate|].
    intros E. specialize (IH _ E). lia. }
  assert (Htail : forall l rest',
             matchTail l = Some rest' -> (length rest' < length l)%nat).
  { unfold matchTail, matchGroup2.
    intros [|c1 [|c2 [|c3 [|a l]]]] rest'; try discriminate;
      destruct (_ && _); try discriminate.
    destruct (isLineTerminator a); [discriminate|].
    intros E%Hclose. simpl. lia. }
  assert (Hgroup : forall l group g' rest',
             scanGroup1 group l = Some (g', rest') -> (length rest' < length l)%nat).
  { induction l as [|a l IH]; intros group g' rest'; [discriminate|].
    cbn [scanGroup1]. destruct (matchTail (a :: l)) eqn:E.
    - intros [= _ <-]. by apply Htail.
    - destruct (isLineTerminator a); [discriminate|].
      intros E'%IH. simpl. lia. }
  destruct r as [|c2 [|c3 r]]; try discriminate.
  destruct (_ && _); [|discriminate].
  apply Hgroup in H. simpl. lia.
Qed.

Local Open Scope string_scope.

Definition getChatPanelTitle (lastDisplayText : option string) (truncateTitle : bool) : string :=
  match lastDisplayText with
  | None => "New Chat"
  | Some s =>
      if negb (JS.truthy (Some s)) then "New Chat"
      else
        let lastDisplayText := trim (replaceAll_links (list_ascii_of_string s)) in
        if negb truncateTitle then string_of_list_ascii lastDisplayText
        else if (25 <? length lastDisplayText)%nat
             then string_of_list_ascii (trim (take 25 lastDisplayText)) +:+ "..."
             else string_of_list_ascii lastDisplayText
  end.

End ChatHelpers.

(** ** Data model *)

Inductive Speaker := human | assistant.

Definition Speaker_eqb (a b : Speaker) : bool :=
  match a, b with
  | human, human | assistant, assistant => true
  | _, _ => false
  end.

(** The speaker as the template literals of the error messages print it. *)
Definition Speaker_name (s : Speaker) : string :=
  match s with human => "human" | assistant => "assistant" end.

(** A position range in dehydrated form. *)
Record Position := { line : Z; character : Z }.
Record RangeData := { range_start : Position; range_end : Position }.

(** Modelled from the spec: the [ContextItem] type of [@sourcegraph/cody-shared]
    is not among the sources. A context item is the URI of a source artifact
    and an optional range. *)
Record ContextItem := { uri : string; range : option RangeData }.

(** The collaborators imported from [@sourcegraph/cody-shared] and from the
    display-text helpers; the class only calls them. They are total and
    return a value: none of them throws. *)
Class Collaborators := {
  Error : Type;
  ChatError : Type;
  errorToChatError : Error -> ChatError;
  isCodyIgnoredFile : string -> bool;
  createDisplayTextWithFileLinks : string -> list ContextItem -> string;
  reformatBotMessageForChat : string -> string -> string;
}.

(** References into the store of JavaScript objects. *)
Definition loc := positive.

(** Modelled from the spec: the [Repo] type of [context/repo-fetcher] is not
    among the sources. A repo descriptor is an object whose own properties
    hold primitive values (a name, an id), here strings keyed by property
    name. *)
Abbreviation Repo := (gmap string string).

(** A cell of the store: a repo object or an array of references. *)
Inductive Cell :=
| ObjectCell (props : Repo)
| ArrayCell (elems : list loc).

Abbreviation Store := (gmap loc Cell).

Section Model.
Context `{C : Collaborators}.

(** Modelled from the spec: the [ChatMessage] type of [@sourcegraph/cody-shared]
    is not among the sources. One turn, with the fields of the spec's data
    model. *)
Record ChatMessage := {
  speaker : Speaker;
  text : option string;
  displayText : option string;
  contextFiles : option (list ContextItem);
  error : option ChatError;
}.

(** The argument of [addHumanMessage] and [addBotMessage]: a message object
    without its [speaker] (any [speaker] it had is overwritten by the
    spread). *)
Record MessageSansSpeaker := {
  init_text : option string;
  init_displayText : option string;
  init_contextFiles : option (list ContextItem);
  init_error : option ChatError;
}.

(** The fields of the class. *)
Record SimpleChatModel := {
  modelID : string;
  messages : list ChatMessage;
  sessionID : string;
  customChatTitle : option string;
  selectedRepos : option loc;
}.

Definition with_messages (this : SimpleChatModel) (l : list ChatMessage) : SimpleChatModel :=
  {| modelID := modelID this; messages := l; sessionID := sessionID this;
     customChatTitle := customChatTitle this; selectedRepos := selectedRepos this |}.

Definition with_customChatTitle (this : SimpleChatModel) (t : option string) : SimpleChatModel :=
  {| modelID := modelID this; messages := messages this; sessionID := sessionID this;
     customChatTitle := t; selectedRepos := selectedRepos this |}.

Definition with_selectedRepos (this : SimpleChatModel) (r : option loc) : SimpleChatModel :=
  {| modelID := modelID this; messages := messages this; sessionID := sessionID this;
     customChatTitle := customChatTitle this; selectedRepos := r |}.

(** [new SimpleChatModel(modelID, [], sessionID)]. *)
Definition newModel (model session : string) : SimpleChatModel :=
  {| modelID := model; messages := []; sessionID := session;
     customChatTitle := None; selectedRepos := None |}.

(** *** Methods as state transformers with exceptions *)

Inductive Completion (A : Type) :=
| Normal (a : A)
| Throw (msg : string).
Global Arguments Normal {A} a.
Global Arguments Throw {A} msg.

Definition M (A : Type) : Type := SimpleChatModel -> Completion A * SimpleChatModel.

Definition ret {A : Type} (a : A) : M A := fun this => (Normal a, this).

Definition bind {A B : Type} (m : M A) (k : A -> M B) : M B :=
  fun this =>
    match m this with
    | (Normal a, this') => k a this'
    | (Throw msg, this') => (Throw msg, this')
    end.

Definition throw {A : Type} (msg : string) : M A := fun this => (Throw msg, this).

(** [this.messages.at(i)], [this.messages.pop()], [this.messages.push(x)]
    and [this.messages.splice(i)]. *)
Definition messages_at (index : Z) : M (option ChatMessage) :=
  fun this => (Normal (JS.at_ (messages this) index), this).

Definition messages_pop : M (option ChatMessage) :=
  fun this =>
    let '(x, rest) := JS.pop (messages this) in
    (Normal x, with_messages this rest).

Definition messages_push (x : ChatMessage) : M unit :=
  fun this => (Normal tt, with_messages this (JS.push (messages this) x)).

Definition messages_splice (index : Z) : M unit :=
  fun this => (Normal tt, with_messages this (JS.splice (messages this) index)).

Notation "'do' x <- m ; k" := (bind m (fun x => k))
  (at level 10, x name, m at level 100, k at level 200).

Definition speakerOf (m : option ChatMessage) : option Speaker := speaker <$> m.

(** [x?.speaker === s] and [x?.speaker !== s]. *)
Definition speaker_is (m : option ChatMessage) (s : Speaker) : bool :=
  match speakerOf m with
  | Some s' => Speaker_eqb s' s
  | None => false
  end.

Definition isEmpty : M bool :=
  fun this => (Normal (Z.of_nat (length (messages this)) =? 0), this).

(** [lastMessage.contextFiles = v] on the last element of the array: the
    object is updated in place. *)
Definition set_contextFiles (m : ChatMessage) (v : list ContextItem) : ChatMessage :=
  {| speaker := speaker m; text := text m; displayText := displayText m;
     contextFiles := Some v; error := error m |}.

Definition assign_last_contextFiles (v : list ContextItem) : M unit :=
  fun this =>
    (Normal tt,
     with_messages this
       (alter (fun m => set_contextFiles m v) (Nat.pred (length (messages this)))
          (messages this))).

Definition setLastMessageContext (newContextUsed : list ContextItem) : M unit :=
  do lastMessage <- messages_at (-1);
  match lastMessage with
  | None => throw "no last message"
  | Some lastMessage =>
      if negb (Speaker_eqb (speaker lastMessage) human)
      then throw "Cannot set new context used for bot message"
      else assign_last_contextFiles
             (List.filter (fun c => negb (isCodyIgnoredFile (uri c))) newContextUsed)
  end.

(** [{ ...message, speaker: 'human' }] *)
Definition humanTurn (message : MessageSansSpeaker) : ChatMessage :=
  {| speaker := human; text := init_text message;
     displayText := init_displayText message;
     contextFiles := init_contextFiles message;
     error := init_error message |}.

Definition addHumanMessage (message : MessageSansSpeaker) : M unit :=
  do lastMessage <- messages_at (-1);
  if speaker_is lastMessage human
  then throw "Cannot add a user message after a user message"
  else messages_push (humanTurn message).

(** [{ ...message, speaker: 'assistant', displayText, error }] *)
Definition assistantTurn (message : MessageSansSpeaker)
    (displayText : option string) (error : option ChatError) : ChatMessage :=
  {| speaker := assistant; text := init_text message;
     displayText := displayText;
     contextFiles := init_contextFiles message;
     error := error |}.

Definition addBotMessage (message : MessageSansSpeaker) (displayText : option string) : M unit :=
  do lastMessage <- messages_at (-1);
  do error <-
    (if speaker_is lastMessage assistant then
       if JS.truthy (lastMessage ≫= text)
       then throw "Cannot add a bot message after a bot message"
       else do popped <- messages_pop; ret (popped ≫= error)
     else ret None);
  messages_push (assistantTurn message displayText error).

(** [{ ...(lastAssistantMessage ?? {}), speaker: 'assistant', error: e }] *)
Definition errorTurn (lastAssistantMessage : option ChatMessage) (e : ChatError) : ChatMessage :=
  {| speaker := assistant;
     text := lastAssistantMessage ≫= text;
     displayText := lastAssistantMessage ≫= displayText;
     contextFiles := lastAssistantMessage ≫= contextFiles;
     error := Some e |}.

Definition addErrorAsBotMessage (error : Error) : M unit :=
  do lastMessage <- messages_at (-1);
  do lastAssistantMessage <-
    (if speaker_is lastMessage assistant then messages_pop else ret None);
  messages_push (errorTurn lastAssistantMessage (errorToChatError error)).

Definition getLastHumanMessage : M (option ChatMessage) :=
  fun this =>
    (Normal (JS.findLast (fun message => Speaker_eqb (speaker message) human) (messages this)),
     this).

(** The declared result type is [number | undefined]; the body returns what
    [findLastIndex] returns. *)
Definition getLastSpeakerMessageIndex (s : Speaker) : M (option Z) :=
  fun this =>
    (Normal (Some (JS.findLastIndex (fun message => Speaker_eqb (speaker message) s)
                     (messages this))),
     this).

Definition undefined_or_name (s : option Speaker) : string :=
  match s with Some s => Speaker_name s | None => "undefined" end.

Definition removeMessagesFromIndex (index : Z) (expectedSpeaker : Speaker) : M unit :=
  do empty <- isEmpty;
  if empty
  then throw "SimpleChatModel.removeMessagesFromIndex: not message to remove"
  else
    do atIndex <- messages_at index;
    let speakerAtIndex := speakerOf atIndex in
    if negb (speaker_is atIndex expectedSpeaker)
    then throw ("SimpleChatModel.removeMessagesFromIndex: expected "
                  +:+ Speaker_name expectedSpeaker +:+ ", got "
                  +:+ undefined_or_name speakerAtIndex)
    else messages_splice index.

Definition getMessages : M (list ChatMessage) :=
  fun this => (Normal (messages this), this).

Definition getCustomChatTitle : M (option string) :=
  fun this => (Normal (customChatTitle this), this).

Definition setCustomChatTitle (title : string) : M unit :=
  fun this => (Normal tt, with_customChatTitle this (Some title)).

(** *** Display text *)

Definition getDisplayText (message : ChatMessage) : option string :=
  if JS.truthy (displayText message) then displayText message
  else
    match speaker message, text message with
    | human, Some t =>
        if JS.truthy (Some t)
        then Some (createDisplayTextWithFileLinks t (default [] (contextFiles message)))
        else text message
    | assistant, Some t =>
        if JS.truthy (Some t)
        then Some (reformatBotMessageForChat t "")
        else text message
    | _, None => text message
    end.

(** *** Title *)

Definition getChatTitle : M string :=
  let derived : M string :=
    do lastHumanMessage <- getLastHumanMessage;
    let text := lastHumanMessage ≫= getDisplayText in
    if JS.truthy text
    then ret (ChatHelpers.getChatPanelTitle text true)
    else ret "New Chat" in
  fun this =>
    match customChatTitle this with
    | Some title => if JS.truthy (Some title) then ret title this else derived this
    | None => derived this
    end.

(** *** Selected repos: arrays and objects in the store *)

Definition alloc (h : Store) (c : Cell) : loc * Store :=
  let l := fresh (dom h) in (l, <[l := c]> h).

Definition object_at (h : Store) (l : loc) : Repo :=
  match h !! l with
  | Some (ObjectCell props) => props
  | _ => ∅
  end.

Definition array_at (h : Store) (l : loc) : list loc :=
  match h !! l with
  | Some (ArrayCell elems) => elems
  | _ => []
  end.

(** [elems.map(r => ({ ...r }))], element by element: each callback allocates
    a new object holding the own properties of [r]. *)
Fixpoint spreadEach (h : Store) (elems : list loc) : list loc * Store :=
  match elems with
  | [] => ([], h)
  | r :: rest =>
      let '(r', h1) := alloc h (ObjectCell (object_at h r)) in
      let '(rest', h2) := spreadEach h1 rest in
      (r' :: rest', h2)
  end.

(** [repos.map(r => ({ ...r }))]: a new array of the new objects. *)
Definition mapSpread (h : Store) (repos : loc) : loc * Store :=
  let '(elems, h1) := spreadEach h (array_at h repos) in
  alloc h1 (ArrayCell elems).

(** An array reference is truthy whatever the array holds. *)
Definition getSelectedRepos (h : Store) (this : SimpleChatModel)
    : option loc * Store * SimpleChatModel :=
  match selectedRepos this with
  | Some own => let '(copy, h') := mapSpread h own in (Some copy, h', this)
  | None => (None, h, this)
  end.

Definition setSelectedRepos (repos : option loc) (h : Store) (this : SimpleChatModel)
    : Store * SimpleChatModel :=
  match repos with
  | Some repos =>
      let '(copy, h') := mapSpread h repos in (h', with_selectedRepos this (Some copy))
  | None => (h, with_selectedRepos this None)
  end.

(** *** Serialization *)

Record SerializedChatInteraction := {
  humanMessage : ChatMessage;
  assistantMessage : option ChatMessage;
}.

Record EnhancedContext := { ec_selectedRepos : loc }.

Record SerializedChatTranscript := {
  id : string;
  chatModel : string;
  chatTitle : option string;
  lastInteractionTimestamp : string;
  interactions : list SerializedChatInteraction;
  enhancedContext : option EnhancedContext;
}.

(** [{ ...message, displayText: getDisplayText(message) }] *)
Definition toSerializedInteractionMessage (message : ChatMessage) : ChatMessage :=
  {| speaker := speaker message; text := text message;
     displayText := getDisplayText message;
     contextFiles := contextFiles message; error := error message |}.

Definition messageToSerializedChatInteraction
    (humanMessage assistantMessage : option ChatMessage)
    : Completion SerializedChatInteraction :=
  match humanMessage with
  | None => Throw "expected human message, got bot"
  | Some human_ =>
      if negb (Speaker_eqb (speaker human_) human)
      then Throw "expected human message, got bot"
      else if negb (Speaker_eqb (speaker human_) human)
      then Throw ("expected human message to have speaker == 'human', got "
                    +:+ Speaker_name (speaker human_))
      else
        match assistantMessage with
        | Some assistant_ =>
            if negb (Speaker_eqb (speaker assistant_) assistant)
            then Throw ("expected bot message to have speaker == 'assistant', got "
                          +:+ Speaker_name (speaker assistant_))
            else Normal {| humanMessage := toSerializedInteractionMessage human_;
                           assistantMessage := Some (toSerializedInteractionMessage assistant_) |}
        | None => Normal {| humanMessage := toSerializedInteractionMessage human_;
                            assistantMessage := None |}
        end
  end.

(** The loop [for (let i = 0; i < this.messages.length; i += 2)], from the
    state it has when the test is about to be evaluated. *)
Equations interactionsLoop (msgs : list ChatMessage) (i : nat)
    (interactions : list SerializedChatInteraction)
    : Completion (list SerializedChatInteraction) by wf (length msgs - i)%nat lt :=
  interactionsLoop msgs i interactions with decide (i < length msgs)%nat => {
    | right _ := Normal interactions;
    | left _ with messageToSerializedChatInteraction
                    (msgs !! i) (JS.at_ msgs (Z.of_nat i + 1)) => {
        | Throw msg := Throw msg;
        | Normal x := interactionsLoop msgs (i + 2) (JS.push interactions x) } }.
Next Obligation.
  intros. lia.
Qed.

Definition toSerializedChatTranscript (h : Store) (this : SimpleChatModel)
    : Completion SerializedChatTranscript * Store :=
  match interactionsLoop (messages this) 0 [] with
  | Throw msg => (Throw msg, h)
  | Normal interactions =>
      let result enhanced :=
        {| id := sessionID this;
           chatModel := modelID this;
           chatTitle := customChatTitle this;
           lastInteractionTimestamp := sessionID this;
           interactions := interactions;
           enhancedContext := enhanced |} in
      match selectedRepos this with
      | Some own =>
          let '(copy, h') := mapSpread h own in
          (Normal (result (Some {| ec_selectedRepos := copy |})), h')
      | None => (Normal (result None), h)
      end
  end.

End Model.

(** ** The invariant and the vocabulary of the properties *)

Section Vocabulary.
Context `{C : Collaborators}.

(** I2 (pairing): the speaker the turn at index [i] must have. *)
Definition speakerAtParity (i : nat) : Speaker :=
  if Nat.even i then human else assistant.

(** I1/I2: every even index is a human turn, every odd index an assistant
    turn. *)
Definition alternating (l : list ChatMessage) : Prop :=
  forall (i : nat) (m : ChatMessage), l !! i = Some m -> speaker m = speakerAtParity i.

(** The object literal [{ text: t }]. *)
Definition textOnly (t : string) : MessageSansSpeaker :=
  {| init_text := Some t; init_displayText := None;
     init_contextFiles := None; init_error := None |}.

(** A call of one of the two appending methods. *)
Inductive Call :=
| CallAddHumanMessage (message : MessageSansSpeaker)
| CallAddBotMessage (message : MessageSansSpeaker) (displayText : option string).

Definition call (c : Call) : M unit :=
  match c with
  | CallAddHumanMessage message => addHumanMessage message
  | CallAddBotMessage message displayText => addBotMessage message displayText
  end.

(** The calls made one after the other; the first that throws ends the run. *)
Fixpoint calls (cs : list Call) : M unit :=
  match cs with
  | [] => ret tt
  | c :: cs => bind (call c) (fun _ => calls cs)
  end.

(** The run starts with [addHumanMessage] (or makes no call at all). *)
Definition humanFirst (cs : list Call) : bool :=
  match cs with
  | CallAddBotMessage _ _ :: _ => false
  | _ => true
  end.

(** The spec's wording of I3 for [setLastMessageContext]: [kept] holds exactly
    the items of [items] that are not ignored, in their order. *)
Inductive withoutIgnored : list ContextItem -> list ContextItem -> Prop :=
| withoutIgnored_nil : withoutIgnored [] []
| withoutIgnored_keep c items kept :
    isCodyIgnoredFile (uri c) = false ->
    withoutIgnored items kept -> withoutIgnored (c :: items) (c :: kept)
| withoutIgnored_drop c items kept :
    isCodyIgnoredFile (uri c) = true ->
    withoutIgnored items kept -> withoutIgnored (c :: items) kept.

(** The most recent turn of a speaker: the turn at the highest index that
    has this speaker. *)
Definition lastTurnOf (s : Speaker) (l : list ChatMessage) (i : nat) (m : ChatMessage) : Prop :=
  l !! i = Some m /\ speaker m = s /\
  forall (j : nat) (m' : ChatMessage), (i < j)%nat -> l !! j = Some m' -> speaker m' <> s.

(** The spec's wording of the serializer's walk: the turns taken two at a
    time, the second of a pair absent when the transcript ends on the first. *)
Fixpoint pairUp (l : list ChatMessage) : list SerializedChatInteraction :=
  match l with
  | [] => []
  | h :: rest =>
      match rest with
      | [] => [ {| humanMessage := toSerializedInteractionMessage h;
                   assistantMessage := None |} ]
      | a :: rest' =>
          {| humanMessage := toSerializedInteractionMessage h;
             assistantMessage := Some (toSerializedInteractionMessage a) |}
          :: pairUp rest'
      end
  end.

(** The end-to-end scenario: hi, hello, bye. *)
Definition scenario : list Call :=
  [ CallAddHumanMessage (textOnly "hi");
    CallAddBotMessage (textOnly "hello") None;
    CallAddHumanMessage (textOnly "bye") ].

(** The values of the repo descriptors an array reference leads to. *)
Definition reposValue (h : Store) (repos : loc) : list Repo :=
  object_at h <$> array_at h repos.

(** The cells an array reference leads to: the array and its elements. *)
Definition cellsOf (h : Store) (repos : loc) : gset loc :=
  {[ repos ]} ∪ list_to_set (array_at h repos).

(** Every element of the array is an allocated cell (JavaScript has no
    dangling reference). *)
Definition liveArray (h : Store) (repos : loc) : Prop :=
  Forall (fun r => r ∈ dom h) (array_at h repos).

(** The cells a model owns: its array of selected repos and the objects in it. *)
Definition ownedCells (h : Store) (this : SimpleChatModel) : gset loc :=
  match selectedRepos this with
  | Some own => cellsOf h own
  | None => ∅
  end.

(** What code outside the class can do to the store: overwrite any cell the
    model does not own (assign a property, push to an array, ...) or
    allocate a new one. *)
Inductive outsideWrites (owned : gset loc) : Store -> Store -> Prop :=
| outsideWrites_refl h : outsideWrites owned h h
| outsideWrites_step h h' l c :
    outsideWrites owned h h' -> l ∉ owned -> outsideWrites owned h (<[l := c]> h').

End Vocabulary.

(** ** Concrete collaborators and inputs for the examples *)

Definition demo : Collaborators :=
  {| Error := string;
     ChatError := string;
     errorToChatError := fun e => "Error: " +:+ e;
     isCodyIgnoredFile := fun u => String.prefix "ignored/" u;
     createDisplayTextWithFileLinks := fun t _ => t;
     reformatBotMessageForChat := fun t _ => t |}.

Definition demoModel (l : list (@ChatMessage demo)) : @SimpleChatModel demo :=
  {| modelID := "model"; messages := l; sessionID := "session";
     customChatTitle := None; selectedRepos := None |}.

Definition demoHuman (t : string) : @ChatMessage demo :=
  {| speaker := human; text := Some t; displayText := None;
     contextFiles := None; error := None |}.

Definition demoAssistant (t : string) : @ChatMessage demo :=
  {| speaker := assistant; text := Some t; displayText := Some t;
     contextFiles := None; error := None |}.

Definition demoItems : list ContextItem :=
  [ {| uri := "src/a.ts"; range := None |};
    {| uri := "ignored/b.ts"; range := None |};
    {| uri := "src/c.ts"; range := None |} ].

(** A caller's store: one repo object and an array that holds it. *)
Definition demoRepo : Repo :=
  <["name" := "github.com/sourcegraph/cody"]> (<["id" := "R1"]> ∅).

Definition demoStore : Store :=
  <[2%positive := ArrayCell [1%positive]]> (<[1%positive := ObjectCell demoRepo]> ∅).

(** The model after [setSelectedRepos] of the caller's array, and the store
    after the caller has then assigned to a property of its repo object. *)
Definition demoAfterSet : Store * @SimpleChatModel demo :=
  setSelectedRepos (Some 2%positive) demoStore (demoModel []).

Definition demoMutatedStore : Store :=
  <[1%positive := ObjectCell (<["name" := "changed"]> demoRepo)]> (fst demoAfterSet).

(** ** The rest of the transcript module *)

Section MoreModel.
Context `{C : Collaborators}.

(** [prepareChatMessage]; [toRangeData] of [@sourcegraph/cody-shared] is a
    parameter. The in-memory range of an item and its dehydrated form share
    the carrier [RangeData]. *)
Definition prepareChatMessage (toRangeData : option RangeData -> option RangeData)
    (message : ChatMessage) : ChatMessage :=
  {| speaker := speaker message; text := text message;
     displayText := getDisplayText message;
     contextFiles :=
       match contextFiles message with
       | Some items =>
           Some (List.map
                   (fun item => {| uri := uri item; range := toRangeData (range item) |})
                   items)
       | None => None
       end;
     error := error message |}.

(** A call of one of the mutating methods of the class. *)
Inductive Mutation :=
| AddHumanMessage (message : MessageSansSpeaker)
| AddBotMessage (message : MessageSansSpeaker) (displayText : option string)
| AddErrorAsBotMessage (error : Error)
| SetLastMessageContext (newContextUsed : list ContextItem)
| RemoveMessagesFromIndex (index : Z) (expectedSpeaker : Speaker)
| SetCustomChatTitle (title : string).

Definition mutate (mu : Mutation) : M unit :=
  match mu with
  | AddHumanMessage message => addHumanMessage message
  | AddBotMessage message displayText => addBotMessage message displayText
  | AddErrorAsBotMessage error => addErrorAsBotMessage error
  | SetLastMessageContext newContextUsed => setLastMessageContext newContextUsed
  | RemoveMessagesFromIndex index expectedSpeaker =>
      removeMessagesFromIndex index expectedSpeaker
  | SetCustomChatTitle title => setCustomChatTitle title
  end.

(** The two methods that push an assistant turn. *)
Definition pushesAssistant (mu : Mutation) : bool :=
  match mu with
  | AddBotMessage _ _ | AddErrorAsBotMessage _ => true
  | _ => false
  end.

(** The three methods that push a turn. *)
Definition pushesTurn (mu : Mutation) : bool :=
  match mu with
  | AddHumanMessage _ | AddBotMessage _ _ | AddErrorAsBotMessage _ => true
  | _ => false
  end.

End MoreModel.

(** ** chat-helpers: openFile

    The function awaits two calls of the editor API; it is embedded as the
    requests it makes, in order, both calls resolving. The value of
    [vscode.ViewColumn.Beside] is a parameter. *)

Module OpenFile.

(** [new vscode.Range(startLine, startCharacter, endLine, endCharacter)] *)
Record Range := {
  startLine : Z; startCharacter : Z; endLine : Z; endCharacter : Z;
}.

Record ShowOptions := {
  selection : option Range;
  viewColumn : Z;
  preserveFocus : bool;
  preview : bool;
}.

Inductive Request :=
| OpenTextDocument (uri : string)
| ShowTextDocument (uri : string) (options : ShowOptions).

(** [a || b] on numbers: [0] is the falsy one. *)
Definition or_number (a b : Z) : Z := if a =? 0 then b else a.

(** A JS number is a double. [vscode.ViewColumn] is a numeric enum and a line
    is a line number, so both are integer-valued doubles, read here as the
    [Z] they hold. Every integer up to [2^53] in absolute value is a double;
    a larger one is rounded to the nearest integer with a 53-bit significand,
    ties to the even significand. *)
Definition roundToDouble (z : Z) : Z :=
  let n := Z.abs z in
  if n <=? 2 ^ 53 then z
  else
    let e := Z.log2 n - 52 in
    let q := Z.shiftr n e in
    let r := n - Z.shiftl q e in
    let half := Z.shiftl 1 (e - 1) in
    let q' := if (half <? r) || ((r =? half) && Z.odd q) then q + 1 else q in
    Z.sgn z * Z.shiftl q' e.

(** [a - b] and [a + b] on numbers: the exact result, rounded. *)
Definition sub_number (a b : Z) : Z := roundToDouble (a - b).
Definition add_number (a b : Z) : Z := roundToDouble (a + b).

Definition openFile (Beside : Z) (uri : string) (range : option RangeData)
    (currentViewColumn : option Z) : list Request :=
  let viewColumn :=
    match currentViewColumn with
    | Some c => if c =? 0 then Beside else or_number (sub_number c 1) (add_number c 1)
    | None => Beside
    end in
  let selection :=
    match range with
    | Some range =>
        Some {| startLine := line (range_start range); startCharacter := 0;
                endLine := add_number (line (range_end range)) 1; endCharacter := 0 |}
    | None => None
    end in
  [ OpenTextDocument uri;
    ShowTextDocument uri
      {| selection := selection; viewColumn := viewColumn;
         preserveFocus := true; preview := true |} ].

End OpenFile.

(** ** completions/providers/ollama-models

    Strings are byte strings here (UTF-8): the module only concatenates them
    and searches them for ASCII needles, which reads the same on bytes and on
    UTF-16 code units. *)

Module Ollama.

(** A number literal with a fractional part, as written: [digits] times ten
    to the power minus [decimals]. *)
Record Decimal := { digits : Z; decimals : nat }.

Definition LF : string := String (ascii_of_nat 10) EmptyString.

Record OllamaPromptContext := {
  snippets : list (string * string);
  context : string;
  currentFileNameComment : string;
  isInfill : bool;
  uri : string;
  prefix : string;
  suffix : string;
  languageId : string;
}.

(** The properties the object literals of the module give to
    [OllamaGenerateParameters]. *)
Record OllamaGenerateParameters := {
  stop : list string;
  temperature : Decimal;
  top_k : Z;
  top_p : Decimal;
  num_predict : Z;
  num_gpu : option Z;
  repeat_penalty : option Decimal;
}.

(** [Object.assign(params, { num_predict, stop })] *)
Definition assign (params : OllamaGenerateParameters) (num_predict' : Z)
    (stop' : list string) : OllamaGenerateParameters :=
  {| stop := stop'; temperature := temperature params; top_k := top_k params;
     top_p := top_p params; num_predict := num_predict';
     num_gpu := num_gpu params; repeat_penalty := repeat_penalty params |}.

(** The interface [OllamaModel]. *)
Record OllamaModel := {
  getPrompt : OllamaPromptContext -> string;
  getRequestOptions : bool -> bool -> OllamaGenerateParameters;
}.

Definition DefaultOllamaModel : OllamaModel :=
  {| getPrompt := fun ollamaPrompt =>
       context ollamaPrompt +:+ currentFileNameComment ollamaPrompt +:+ prefix ollamaPrompt;
     getRequestOptions := fun isMultiline isDynamicMultiline =>
       let stop := ["<PRE>"; "<SUF>"; "<MID>"; "<EOT>"] in
       let params :=
         {| stop := LF :: stop;
            temperature := {| digits := 2; decimals := 1 |};
            top_k := -1;
            top_p := {| digits := -1; decimals := 0 |};
            num_predict := 30;
            num_gpu := None; repeat_penalty := None |} in
       let params := if isMultiline then assign params 256 ((LF +:+ LF) :: stop) else params in
       let params := if isDynamicMultiline then assign params 256 stop else params in
       params |}.

Definition DeepseekCoder : OllamaModel :=
  {| getPrompt := fun ollamaPrompt =>
       let infillPrefix :=
         context ollamaPrompt +:+ currentFileNameComment ollamaPrompt +:+ prefix ollamaPrompt in
       "<｜fim▁begin｜>" +:+ infillPrefix +:+ "<｜fim▁hole｜>" +:+ suffix ollamaPrompt
         +:+ "<｜fim▁end｜>";
     getRequestOptions := fun isMultiline isDynamicMultiline =>
       let stop := ["<｜fim▁begin｜>"; "<｜fim▁hole｜>"; "<｜fim▁end｜>"] in
       let params :=
         {| stop := LF :: stop;
            temperature := {| digits := 6; decimals := 1 |};
            top_k := 30;
            top_p := {| digits := 2; decimals := 1 |};
            num_predict := 30;
            num_gpu := Some 99;
            repeat_penalty := Some {| digits := 11; decimals := 1 |} |} in
       let params := if isMultiline then assign params 256 ((LF +:+ LF) :: stop) else params in
       let params := if isDynamicMultiline then assign params 256 stop else params in
       params |}.

(** [CodeLlama] overrides [getPrompt] and inherits [getRequestOptions]. *)
Definition CodeLlama : OllamaModel :=
  {| getPrompt := fun ollamaPrompt =>
       if isInfill ollamaPrompt then
         let infillPrefix :=
           context ollamaPrompt +:+ currentFileNameComment ollamaPrompt
             +:+ prefix ollamaPrompt in
         "<PRE> " +:+ infillPrefix +:+ " <SUF>" +:+ suffix ollamaPrompt +:+ " <MID>"
       else
         context ollamaPrompt +:+ currentFileNameComment ollamaPrompt +:+ prefix ollamaPrompt;
     getRequestOptions := getRequestOptions DefaultOllamaModel |}.

Definition StarCoder : OllamaModel :=
  {| getPrompt := fun ollamaPrompt =>
       let infillPrefix := context ollamaPrompt +:+ prefix ollamaPrompt in
       "<fim_prefix>" +:+ infillPrefix +:+ "<fim_suffix>" +:+ suffix ollamaPrompt
         +:+ "<fim_middle>";
     getRequestOptions := fun isMultiline isDynamicMultiline =>
       let stop := ["<fim_prefix>"; "<fim_suffix>"; "<fim_middle>"; "<|endoftext|>"] in
       let params :=
         {| stop := LF :: stop;
            temperature := {| digits := 2; decimals := 1 |};
            top_k := -1;
            top_p := {| digits := -1; decimals := 0 |};
            num_predict := 30;
            num_gpu := None; repeat_penalty := None |} in
       let params := if isMultiline then assign params 256 stop else params in
       let params := if isDynamicMultiline then assign params 256 stop else params in
       params |}.

(** [String.prototype.includes]: [search] occurs somewhere in [s]. *)
Fixpoint includes (s search : string) : bool :=
  String.prefix search s
  || match s with
     | EmptyString => false
     | String _ s' => includes s' search
     end.

Definition getModelHelpers (model : string) : OllamaModel :=
  if includes model "codellama" then CodeLlama
  else if includes model "deepseek-coder" then DeepseekCoder
  else if includes model "starcoder" then StarCoder
  else DefaultOllamaModel.

End Ollama.

(** A prompt context, with the file name comment and the infill flag left
    open. *)
Definition demoPrompt (comment : string) (infill : bool) : Ollama.OllamaPromptContext :=
  {| Ollama.snippets := []; Ollama.context := "ctx;";
     Ollama.currentFileNameComment := comment; Ollama.isInfill := infill;
     Ollama.uri := "a.ts"; Ollama.prefix := "let x = "; Ollama.suffix := ";";
     Ollama.languageId := "typescript" |}.

(** The position an index of [removeMessagesFromIndex] names in a transcript
    of [len] turns: the index itself, or the index counted back from the end
    when it is negative. An index outside [-len, len) names no position. *)
Definition positionOf (len : nat) (index : Z) (k : nat) : Prop :=
  (k < len)%nat /\ (index = Z.of_nat k \/ index = Z.of_nat k - Z.of_nat len).

(** ** Properties *)

Section Properties.
Context `{C : Collaborators}.
Implicit Types (this : SimpleChatModel) (l : list ChatMessage) (m : ChatMessage).

(** *** Array primitives *)

Lemma at_last {A : Type} (l : list A) : JS.at_ l (-1) = last l.
Proof.
  destruct l as [|x l _] using rev_ind; [done|].
  unfold JS.at_. rewrite last_snoc, length_app. simpl.
  replace (Z.of_nat (length l + 1) + -1) with (Z.of_nat (length l)) by lia.
  destruct (Z.ltb_spec (Z.of_nat (length l)) 0); [lia|].
  rewrite Nat2Z.id. by rewrite list_lookup_middle.
Qed.

Lemma at_nonneg {A : Type} (l : list A) (i : Z) :
  0 <= i -> JS.at_ l i = l !! Z.to_nat i.
Proof.
  intros Hi. unfold JS.at_. cbv zeta.
  assert ((i <? 0) = false) as H by lia. by rewrite !H.
Qed.

Lemma with_messages_twice this l l' :
  with_messages (with_messages this l) l' = with_messages this l'.
Proof. done. Qed.

(** *** The alternation invariant *)

Lemma alternating_nil : alternating [].
Proof. intros i m Hi. by rewrite lookup_nil in Hi. Qed.

Lemma alternating_snoc l m :
  alternating l -> speaker m = speakerAtParity (length l) -> alternating (l ++ [m]).
Proof.
  intros Hl Hm i m' Hi.
  apply lookup_snoc_Some in Hi as [[_ Hi]|[-> <-]]; eauto.
Qed.

Lemma alternating_snoc_inv l m :
  alternating (l ++ [m]) -> alternating l /\ speaker m = speakerAtParity (length l).
Proof.
  intros H. split.
  - intros i m' Hi. apply (H i). by apply lookup_app_l_Some.
  - apply (H (length l)). by rewrite list_lookup_middle.
Qed.

Lemma speakerAtParity_S (n : nat) :
  speakerAtParity (S n) = match speakerAtParity n with human => assistant | assistant => human end.
Proof.
  unfold speakerAtParity. rewrite Nat.even_succ, <- Nat.negb_even.
  by destruct (Nat.even n).
Qed.

(** *** addErrorAsBotMessage, case by case on the last turn *)

Lemma addErrorAsBotMessage_appends this (e : Error) :
  speaker_is (last (messages this)) assistant = false ->
  addErrorAsBotMessage e this
  = (Normal tt, with_messages this (messages this ++ [errorTurn None (errorToChatError e)])).
Proof.
  intros H. unfold addErrorAsBotMessage, bind, messages_at, messages_push.
  by rewrite at_last, H.
Qed.

Lemma addErrorAsBotMessage_replaces this (e : Error) l m :
  messages this = l ++ [m] -> speaker m = assistant ->
  addErrorAsBotMessage e this
  = (Normal tt, with_messages this (l ++ [errorTurn (Some m) (errorToChatError e)])).
Proof.
  intros H Hm. unfold addErrorAsBotMessage, bind, messages_at, messages_push, messages_pop.
  rewrite at_last, H, last_snoc. unfold speaker_is. simpl. rewrite Hm. simpl.
  by rewrite H, removelast_last, last_snoc.
Qed.

(** C1 (as amended). [addErrorAsBotMessage] never throws, whatever the
    transcript, and the last turn it leaves is an assistant turn whose [error]
    is [errorToChatError error]. When the transcript is not empty and has a
    human turn at every even index and an assistant turn at every odd index,
    the transcript it leaves has them too. *)
Theorem addErrorAsBotMessage_recovers this (e : Error) :
  exists this',
    addErrorAsBotMessage e this = (Normal tt, this') /\
    (exists m, last (messages this') = Some m /\
               speaker m = assistant /\ error m = Some (errorToChatError e)) /\
    (messages this <> [] -> alternating (messages this) -> alternating (messages this')).
Proof.
  destruct (messages this) as [|m l _] eqn:E using rev_ind.
  - eexists. split; [apply addErrorAsBotMessage_appends; by rewrite E|].
    rewrite E. split; [by eexists|]. done.
  - destruct (speaker m) eqn:Hm.
    + eexists. split.
      { apply addErrorAsBotMessage_appends. rewrite E, last_snoc.
        unfold speaker_is. simpl. by rewrite Hm. }
      simpl. rewrite E. split.
      * eexists. split; [by rewrite last_snoc|done].
      * intros _ Halt. apply alternating_snoc; [done|].
        apply alternating_snoc_inv in Halt as [_ Hpar].
        rewrite length_app, Nat.add_1_r, speakerAtParity_S, <- Hpar, Hm. done.
    + eexists. split; [by eapply addErrorAsBotMessage_replaces|]. simpl.
      split.
      * eexists. split; [by rewrite last_snoc|done].
      * intros _ Halt. apply alternating_snoc_inv in Halt as [Hl Hpar].
        apply alternating_snoc; [done|]. simpl. congruence.
Qed.

(** C9. When the last turn is an assistant turn, [addErrorAsBotMessage]
    replaces it by a turn with the same [text], [displayText] and
    [contextFiles]; only [speaker] (set to assistant again) and [error] are
    written, and the turns before it are the same. *)
Theorem addErrorAsBotMessage_keeps_fields this (e : Error) l m :
  messages this = l ++ [m] -> speaker m = assistant ->
  exists m',
    addErrorAsBotMessage e this = (Normal tt, with_messages this (l ++ [m'])) /\
    text m' = text m /\ displayText m' = displayText m /\
    contextFiles m' = contextFiles m /\
    speaker m' = assistant /\ error m' = Some (errorToChatError e).
Proof.
  intros H Hm. exists (errorTurn (Some m) (errorToChatError e)).
  split; [by apply addErrorAsBotMessage_replaces|]. done.
Qed.

(** *** addHumanMessage and addBotMessage, case by case on the last turn *)

Lemma addHumanMessage_throws this message m :
  last (messages this) = Some m -> speaker m = human ->
  addHumanMessage message this
  = (Throw "Cannot add a user message after a user message", this).
Proof.
  intros H Hm. unfold addHumanMessage, bind, messages_at, speaker_is.
  rewrite at_last, H. simpl. by rewrite Hm.
Qed.

Lemma addHumanMessage_appends this message :
  speaker_is (last (messages this)) human = false ->
  addHumanMessage message this
  = (Normal tt, with_messages this (messages this ++ [humanTurn message])).
Proof.
  intros H. unfold addHumanMessage, bind, messages_at.
  by rewrite at_last, H.
Qed.

Lemma addBotMessage_appends this message d :
  speaker_is (last (messages this)) assistant = false ->
  addBotMessage message d this
  = (Normal tt, with_messages this (messages this ++ [assistantTurn message d None])).
Proof.
  intros H. unfold addBotMessage, bind, messages_at.
  by rewrite at_last, H.
Qed.

Lemma addBotMessage_throws this message d m :
  last (messages this) = Some m -> speaker m = assistant ->
  JS.truthy (text m) = true ->
  addBotMessage message d this
  = (Throw "Cannot add a bot message after a bot message", this).
Proof.
  intros H Hm Ht. unfold addBotMessage, bind, messages_at, speaker_is.
  rewrite at_last, H. simpl. by rewrite Hm, Ht.
Qed.

Lemma addBotMessage_replaces this message d l m :
  messages this = l ++ [m] -> speaker m = assistant ->
  JS.truthy (text m) = false ->
  addBotMessage message d this
  = (Normal tt, with_messages this (l ++ [assistantTurn message d (error m)])).
Proof.
  intros H Hm Ht. unfold addBotMessage, bind, messages_at, messages_pop, speaker_is.
  rewrite at_last, H, last_snoc. simpl. rewrite Hm, Ht. simpl.
  by rewrite H, removelast_last, last_snoc.
Qed.

(** C3. After a human turn, [addErrorAsBotMessage(e)] followed by
    [addBotMessage({ text: answer }, displayText)] leaves the transcript as it
    was plus one assistant turn: its text is the answer and its [error] is
    [errorToChatError e]; the placeholder is gone. *)
Theorem error_then_answer this (e : Error) (answer : string) (d : option string) l m :
  messages this = l ++ [m] -> speaker m = human ->
  bind (addErrorAsBotMessage e) (fun _ => addBotMessage (textOnly answer) d) this
  = (Normal tt,
     with_messages this
       (l ++ [m; {| speaker := assistant; text := Some answer; displayText := d;
                    contextFiles := None; error := Some (errorToChatError e) |}])).
Proof.
  intros H Hm. unfold bind at 1.
  rewrite addErrorAsBotMessage_appends.
  2:{ rewrite H, last_snoc. unfold speaker_is. simpl. by rewrite Hm. }
  rewrite (addBotMessage_replaces _ _ _ (messages this)
             (errorTurn None (errorToChatError e))) by done.
  simpl. rewrite H, with_messages_twice, <- app_assoc. reflexivity.
Qed.

(** *** Runs of addHumanMessage and addBotMessage *)

Lemma call_keeps_alternation (c : Call) this this' :
  messages this <> [] -> alternating (messages this) ->
  call c this = (Normal tt, this') ->
  messages this' <> [] /\ alternating (messages this').
Proof.
  destruct (messages this) as [|m l _] eqn:E using rev_ind; [done|].
  intros _ Halt.
  pose proof Halt as [Hl Hpar]%alternating_snoc_inv.
  assert (Hnext : speakerAtParity (length (l ++ [m]))
                  = match speaker m with human => assistant | assistant => human end).
  { by rewrite length_app, Nat.add_1_r, speakerAtParity_S, Hpar. }
  destruct c as [message|message d]; simpl.
  - destruct (speaker m) eqn:Hm.
    + erewrite addHumanMessage_throws; [done| |done]. by rewrite E, last_snoc.
    + rewrite addHumanMessage_appends.
      2:{ rewrite E, last_snoc. unfold speaker_is. simpl. by rewrite Hm. }
      intros [= <-]. simpl. rewrite E. split; [by destruct l|].
      apply alternating_snoc; [done|]. by rewrite Hnext.
  - destruct (speaker m) eqn:Hm.
    + rewrite addBotMessage_appends.
      2:{ rewrite E, last_snoc. unfold speaker_is. simpl. by rewrite Hm. }
      intros [= <-]. simpl. rewrite E. split; [by destruct l|].
      apply alternating_snoc; [done|]. by rewrite Hnext.
    + destruct (JS.truthy (text m)) eqn:Ht.
      * erewrite addBotMessage_throws; [done| |done|done]. by rewrite E, last_snoc.
      * erewrite addBotMessage_replaces; [|done|done|done].
        intros [= <-]. simpl. split; [by destruct l|].
        apply alternating_snoc; [done|]. simpl. congruence.
Qed.

Lemma calls_keep_alternation (cs : list Call) : forall this,
  messages this <> [] -> alternating (messages this) ->
  fst (calls cs this) = Normal tt ->
  alternating (messages (snd (calls cs this))).
Proof.
  induction cs as [|c cs IH]; intros this Hne Halt; [done|].
  simpl. unfold bind.
  destruct (call c this) as [[[]|msg] this'] eqn:Ec; [|done].
  destruct (call_keeps_alternation c this this' Hne Halt Ec) as [Hne' Halt'].
  by apply IH.
Qed.

(** C2 (as amended). On an initially empty transcript, a run of
    [addHumanMessage] and [addBotMessage] calls that starts with
    [addHumanMessage] and in which no call throws leaves a human turn at
    every even index and an assistant turn at every odd index. *)
Theorem calls_alternate (cs : list Call) this :
  messages this = [] -> humanFirst cs = true ->
  fst (calls cs this) = Normal tt ->
  alternating (messages (snd (calls cs this))).
Proof.
  intros E Hfirst.
  destruct cs as [|[message|message d] cs]; [|clear Hfirst|done].
  - intros _. simpl. rewrite E. apply alternating_nil.
  - simpl. unfold bind.
    rewrite addHumanMessage_appends by by rewrite E.
    apply calls_keep_alternation; simpl; rewrite E; [done|].
    apply (alternating_snoc []); [apply alternating_nil|done].
Qed.

(** *** setLastMessageContext *)

Lemma filter_withoutIgnored (items : list ContextItem) :
  withoutIgnored items (List.filter (fun c => negb (isCodyIgnoredFile (uri c))) items).
Proof.
  induction items as [|c items IH]; simpl; [constructor|].
  destruct (isCodyIgnoredFile (uri c)) eqn:Hc; simpl; by constructor.
Qed.

Lemma withoutIgnored_unique (items kept kept' : list ContextItem) :
  withoutIgnored items kept -> withoutIgnored items kept' -> kept = kept'.
Proof.
  intros H; revert kept'.
  induction H as [|c items kept Hc _ IH|c items kept Hc _ IH]; intros kept' H';
    inversion H'; subst; try congruence; [f_equal|]; by apply IH.
Qed.

Lemma alter_last_snoc {A : Type} (f : A -> A) (l : list A) (x : A) :
  alter f (Nat.pred (length (l ++ [x]))) (l ++ [x]) = l ++ [f x].
Proof.
  rewrite length_app, Nat.add_1_r. simpl.
  replace (length l) with (length l + 0)%nat at 1 by lia.
  by rewrite alter_app_r.
Qed.

Lemma setLastMessageContext_assigns this (items : list ContextItem) l m :
  messages this = l ++ [m] -> speaker m = human ->
  setLastMessageContext items this
  = (Normal tt,
     with_messages this
       (l ++ [set_contextFiles m
                (List.filter (fun c => negb (isCodyIgnoredFile (uri c))) items)])).
Proof.
  intros H Hm. unfold setLastMessageContext, bind, messages_at.
  rewrite at_last, H, last_snoc, Hm. simpl.
  unfold assign_last_contextFiles. by rewrite H, alter_last_snoc.
Qed.

(** C5. On a transcript whose last turn is human, [setLastMessageContext]
    succeeds, leaves the turns before the last as they were and sets the last
    turn's [contextFiles] to exactly the items that are not ignored, in their
    order; a second call with the same items changes nothing. *)
Theorem setLastMessageContext_filters this (items : list ContextItem) l m :
  messages this = l ++ [m] -> speaker m = human ->
  exists kept this',
    setLastMessageContext items this = (Normal tt, this') /\
    messages this' = l ++ [set_contextFiles m kept] /\
    contextFiles <$> last (messages this') = Some (Some kept) /\
    withoutIgnored items kept /\
    setLastMessageContext items this' = (Normal tt, this').
Proof.
  intros H Hm. eexists _, _.
  split; [by apply setLastMessageContext_assigns|].
  split; [done|]. simpl.
  split; [by rewrite last_snoc|].
  split; [apply filter_withoutIgnored|].
  by rewrite (setLastMessageContext_assigns _ items l
                (set_contextFiles m
                   (List.filter (fun c => negb (isCodyIgnoredFile (uri c))) items))).
Qed.

(** *** removeMessagesFromIndex *)

Lemma at_Some_position {A : Type} (l : list A) (index : Z) (x : A) :
  JS.at_ l index = Some x ->
  exists k : nat,
    (k < length l)%nat /\ l !! k = Some x /\
    Z.of_nat k = (if index <? 0 then Z.of_nat (length l) + index else index) /\
    JS.splice_start l index = k.
Proof.
  unfold JS.at_, JS.splice_start. cbv zeta.
  set (k := if index <? 0 then Z.of_nat (length l) + index else index).
  destruct (Z.ltb_spec k 0) as [|Hk]; [done|].
  intros Hx. exists (Z.to_nat k).
  pose proof (lookup_lt_Some _ _ _ Hx) as Hlt.
  repeat split; [done|done|lia|].
  subst k. destruct (Z.ltb_spec index 0); f_equal; lia.
Qed.

Lemma at_position {A : Type} (l : list A) (index : Z) (k : nat) :
  positionOf (length l) index k ->
  JS.at_ l index = l !! k /\ JS.splice_start l index = k.
Proof.
  intros [Hk Hidx]. unfold JS.at_, JS.splice_start. cbv zeta.
  destruct Hidx as [-> | ->].
  - assert ((Z.of_nat k <? 0) = false) as H by lia. rewrite !H.
    rewrite Nat2Z.id, Z.min_l, Nat2Z.id by lia. done.
  - assert ((Z.of_nat k - Z.of_nat (length l) <? 0) = true) as H by lia. rewrite !H.
    replace (Z.of_nat (length l) + (Z.of_nat k - Z.of_nat (length l)))
      with (Z.of_nat k) by lia.
    assert ((Z.of_nat k <? 0) = false) as -> by lia.
    rewrite Z.max_l, Nat2Z.id by lia. done.
Qed.

(** C6. [removeMessagesFromIndex] throws on an empty transcript, and throws
    when no turn with the expected speaker stands at the position the index
    names (the index itself, or counted from the end when negative): the
    turn there has another speaker, or there is no turn. The model is as it
    was in both cases. When the turn at that position has the expected
    speaker the call succeeds: the transcript it leaves holds exactly the
    turns before that position, and the other fields are untouched. *)
Theorem removeMessagesFromIndex_guarded this (index : Z) (expected : Speaker) :
  (messages this = [] ->
   removeMessagesFromIndex index expected this
   = (Throw "SimpleChatModel.removeMessagesFromIndex: not message to remove", this)) /\
  ((forall (k : nat) m,
       positionOf (length (messages this)) index k ->
       messages this !! k = Some m -> speaker m <> expected) ->
   exists msg, removeMessagesFromIndex index expected this = (Throw msg, this)) /\
  (forall (k : nat) m,
     positionOf (length (messages this)) index k ->
     messages this !! k = Some m -> speaker m = expected ->
     exists this',
       removeMessagesFromIndex index expected this = (Normal tt, this') /\
       messages this' = take k (messages this) /\
       modelID this' = modelID this /\ sessionID this' = sessionID this /\
       customChatTitle this' = customChatTitle this /\
       selectedRepos this' = selectedRepos this).
Proof.
  unfold removeMessagesFromIndex, bind, isEmpty, messages_at, messages_splice, speaker_is.
  split; [|split].
  - by intros ->.
  - intros Hall.
    destruct (Z.eqb_spec (Z.of_nat (length (messages this))) 0); [by eexists|].
    destruct (JS.at_ (messages this) index) as [m|] eqn:Hat; [|by eexists].
    destruct (at_Some_position _ _ _ Hat) as (k & Hk & Hm & Hidx & _).
    assert (Hpos : positionOf (length (messages this)) index k).
    { split; [done|]. destruct (Z.ltb_spec index 0); lia. }
    specialize (Hall k m Hpos Hm).
    change (speakerOf (Some m)) with (Some (speaker m)).
    destruct (Speaker_eqb (speaker m) expected) eqn:Es; [|by eexists].
    destruct (speaker m), expected; done.
  - intros k m Hpos Hm Hs.
    destruct (at_position _ _ _ Hpos) as [Hat Hstart].
    pose proof Hpos as [Hk _].
    destruct (Z.eqb_spec (Z.of_nat (length (messages this))) 0); [lia|].
    rewrite Hat, Hm. change (speakerOf (Some m)) with (Some (speaker m)).
    rewrite Hs.
    assert (Speaker_eqb expected expected = true) as -> by by destruct expected.
    cbn [negb].
    eexists. split; [reflexivity|]. cbn [messages with_messages]. unfold JS.splice.
    by rewrite Hstart.
Qed.

(** *** Scanning from the end *)

Lemma Speaker_eqb_eq (a b : Speaker) : Speaker_eqb a b = true <-> a = b.
Proof. destruct a, b; simpl; split; congruence. Qed.

Lemma Speaker_eqb_neq (a b : Speaker) : Speaker_eqb a b = false <-> a <> b.
Proof. destruct a, b; simpl; split; congruence. Qed.

Lemma findLastIndex_below_spec {A : Type} (p : A -> bool) (l : list A) (k : nat) :
  (k <= length l)%nat ->
  let r := JS.findLastIndex_below p l k in
  (r = -1 /\ forall (j : nat) (x : A), (j < k)%nat -> l !! j = Some x -> p x = false) \/
  (exists (i : nat) (x : A),
      r = Z.of_nat i /\ (i < k)%nat /\ l !! i = Some x /\ p x = true /\
      forall (j : nat) (y : A), (i < j < k)%nat -> l !! j = Some y -> p y = false).
Proof.
  induction k as [|k IH]; intros Hk; simpl.
  - left. split; [done|]. intros; lia.
  - destruct (lookup_lt_is_Some_2 l k) as [x Hx]; [lia|]. rewrite Hx.
    destruct (p x) eqn:Hp.
    + right. exists k, x. repeat split; [lia|done|done|]. intros; lia.
    + destruct IH as [[Hr Hall]|(i & y & Hr & Hi & Hy & Hpy & Hall)]; [lia| |].
      * left. split; [done|]. intros j z Hj Hz.
        destruct (decide (j = k)) as [->|]; [congruence|]. apply (Hall j); [lia|done].
      * right. exists i, y. repeat split; [done|lia|done|done|].
        intros j z Hj Hz.
        destruct (decide (j = k)) as [->|]; [congruence|]. apply (Hall j); [lia|done].
Qed.

Lemma findLast_below_spec {A : Type} (p : A -> bool) (l : list A) (k : nat) :
  (k <= length l)%nat ->
  match JS.findLast_below p l k with
  | None => forall (j : nat) (x : A), (j < k)%nat -> l !! j = Some x -> p x = false
  | Some x =>
      exists i : nat,
        (i < k)%nat /\ l !! i = Some x /\ p x = true /\
        forall (j : nat) (y : A), (i < j < k)%nat -> l !! j = Some y -> p y = false
  end.
Proof.
  induction k as [|k IH]; intros Hk; simpl.
  - intros; lia.
  - destruct (lookup_lt_is_Some_2 l k) as [x Hx]; [lia|]. rewrite Hx.
    destruct (p x) eqn:Hp.
    + exists k. repeat split; [lia|done|done|]. intros; lia.
    + specialize (IH ltac:(lia)).
      destruct (JS.findLast_below p l k) as [y|].
      * destruct IH as (i & Hi & Hy & Hpy & Hall).
        exists i. repeat split; [lia|done|done|].
        intros j z Hj Hz.
        destruct (decide (j = k)) as [->|]; [congruence|]. apply (Hall j); [lia|done].
      * intros j z Hj Hz.
        destruct (decide (j = k)) as [->|]; [congruence|]. apply (IH j); [lia|done].
Qed.

Lemma lastTurnOf_unique (s : Speaker) l (i i' : nat) m m' :
  lastTurnOf s l i m -> lastTurnOf s l i' m' -> i = i' /\ m = m'.
Proof.
  intros (Hi & Hs & Hlater) (Hi' & Hs' & Hlater').
  assert (i = i') as ->.
  { destruct (Nat.lt_trichotomy i i') as [Hlt|[->|Hlt]]; [|done|].
    - by destruct (Hlater _ _ Hlt Hi').
    - by destruct (Hlater' _ _ Hlt Hi). }
  split; congruence.
Qed.

Lemma findLast_human_spec l :
  match JS.findLast (fun message => Speaker_eqb (speaker message) human) l with
  | Some m => exists i, lastTurnOf human l i m
  | None => forall m, m ∈ l -> speaker m <> human
  end.
Proof.
  unfold JS.findLast.
  pose proof (findLast_below_spec (fun message => Speaker_eqb (speaker message) human)
                l (length l) ltac:(lia)) as H.
  destruct (JS.findLast_below _ _ _) as [m|].
  - destruct H as (i & Hi & Hm & Hp & Hall). exists i.
    split; [done|]. split; [by apply Speaker_eqb_eq|].
    intros j m' Hj Hm'. apply Speaker_eqb_neq, (Hall j); [|done].
    split; [done|]. by eapply lookup_lt_Some.
  - intros m [j Hj]%list_elem_of_lookup.
    apply Speaker_eqb_neq, (H j); [|done]. by eapply lookup_lt_Some.
Qed.

(** What [getLastSpeakerMessageIndex] returns on every transcript: always a
    number, the highest index whose turn has the speaker, and [-1] (never
    [undefined]) when no turn has it. *)
Theorem getLastSpeakerMessageIndex_result this (s : Speaker) :
  exists i : Z,
    getLastSpeakerMessageIndex s this = (Normal (Some i), this) /\
    ((i = -1 /\ forall m, m ∈ messages this -> speaker m <> s) \/
     (0 <= i /\ exists m, lastTurnOf s (messages this) (Z.to_nat i) m)).
Proof.
  eexists. split; [reflexivity|].
  unfold JS.findLastIndex.
  destruct (findLastIndex_below_spec (fun message => Speaker_eqb (speaker message) s)
              (messages this) (length (messages this)) ltac:(lia))
    as [[-> Hall]|(i & m & -> & Hi & Hm & Hp & Hall)].
  - left. split; [done|].
    intros m [j Hj]%list_elem_of_lookup.
    apply Speaker_eqb_neq, (Hall j); [|done]. by eapply lookup_lt_Some.
  - right. split; [lia|]. exists m. rewrite Nat2Z.id.
    split; [done|]. split; [by apply Speaker_eqb_eq|].
    intros j m' Hj Hm'. apply Speaker_eqb_neq, (Hall j); [|done].
    split; [done|]. by eapply lookup_lt_Some.
Qed.

(** *** getChatTitle *)

Lemma truthy_Some (s : string) : JS.truthy (Some s) = true <-> s <> "".
Proof.
  simpl. destruct (String.eqb_spec s ""); simpl; split; congruence.
Qed.

(** C7 (as amended). [getChatTitle] returns [customChatTitle] whenever it is
    set to a non-empty string, whatever the messages. When it is not set, or
    set to the empty string, the title is [getChatPanelTitle] of the display
    text of the most recent human turn when that text is non-empty, and the
    literal New Chat when there is no human turn or its display text is
    absent or empty. The model is unchanged in every case. *)
Theorem getChatTitle_cases this :
  (forall title, customChatTitle this = Some title -> title <> "" ->
     getChatTitle this = (Normal title, this)) /\
  (JS.truthy (customChatTitle this) = false ->
     (forall i m d, lastTurnOf human (messages this) i m ->
        getDisplayText m = Some d -> d <> "" ->
        getChatTitle this = (Normal (ChatHelpers.getChatPanelTitle (Some d) true), this)) /\
     (forall i m, lastTurnOf human (messages this) i m ->
        JS.truthy (getDisplayText m) = false ->
        getChatTitle this = (Normal "New Chat", this)) /\
     ((forall m, m ∈ messages this -> speaker m <> human) ->
        getChatTitle this = (Normal "New Chat", this))).
Proof.
  split.
  - intros title Ht Hne. unfold getChatTitle. rewrite Ht.
    by rewrite (proj2 (truthy_Some title) Hne).
  - intros Hcustom.
    assert (Hderived : getChatTitle this
      = (let text := JS.findLast (fun message => Speaker_eqb (speaker message) human)
                       (messages this) ≫= getDisplayText in
         if JS.truthy text
         then Normal (ChatHelpers.getChatPanelTitle text true) else Normal "New Chat",
         this)).
    { unfold getChatTitle. destruct (customChatTitle this) as [title|]; [rewrite Hcustom|];
        unfold bind, getLastHumanMessage, ret; simpl;
        by destruct (JS.truthy (_ ≫= _)). }
    rewrite Hderived. clear Hderived.
    pose proof (findLast_human_spec (messages this)) as Hr.
    destruct (JS.findLast _ _) as [m'|]; simpl.
    + destruct Hr as [i' Hlast'].
      split; [|split].
      * intros i m d Hlast Hd Hne.
        destruct (lastTurnOf_unique _ _ _ _ _ _ Hlast Hlast') as [_ <-].
        rewrite Hd. by rewrite (proj2 (truthy_Some d) Hne).
      * intros i m Hlast Hd.
        destruct (lastTurnOf_unique _ _ _ _ _ _ Hlast Hlast') as [_ <-].
        by rewrite Hd.
      * intros Hnone.
        destruct Hlast' as (Hi%list_elem_of_lookup_2 & Hs & _). by destruct (Hnone m').
    + split; [|split]; [|done|done].
      intros i m d (Hi%list_elem_of_lookup_2 & Hs & _). by destruct (Hr m).
Qed.

(** *** Serialization *)

Lemma interaction_of_pair l (i : nat) h :
  alternating l -> Nat.even i = true -> l !! i = Some h ->
  messageToSerializedChatInteraction (l !! i) (JS.at_ l (Z.of_nat i + 1))
  = Normal {| humanMessage := toSerializedInteractionMessage h;
              assistantMessage := toSerializedInteractionMessage <$> l !! S i |}.
Proof.
  intros Halt Hi Hh. unfold messageToSerializedChatInteraction.
  rewrite Hh, (Halt _ _ Hh). unfold speakerAtParity. rewrite Hi. simpl.
  rewrite at_nonneg by lia.
  replace (Z.to_nat (Z.of_nat i + 1)) with (S i) by lia.
  destruct (l !! S i) as [a|] eqn:Ha; [|done].
  rewrite (Halt _ _ Ha). unfold speakerAtParity.
  rewrite Nat.even_succ, <- Nat.negb_even, Hi. done.
Qed.

Lemma interactionsLoop_alternating l (i : nat) acc :
  alternating l -> Nat.even i = true ->
  interactionsLoop l i acc = Normal (acc ++ pairUp (drop i l)).
Proof.
  intros Halt. funelim (interactionsLoop l i acc); intros Hi.
  - (* the test fails: the loop ends *)
    rewrite drop_ge by lia. simpl. by rewrite app_nil_r.
  - (* an interaction is pushed, the loop goes on *)
    destruct (lookup_lt_is_Some_2 msgs i) as [h Hh]; [done|].
    rewrite (interaction_of_pair _ _ _ Halt Hi Hh) in Heq. injection Heq as <-.
    replace (i + 2)%nat with (S (S i)) in * by lia.
    rewrite H; [|done|by rewrite Nat.even_succ_succ].
    unfold JS.push. rewrite <- app_assoc. do 2 f_equal.
    rewrite (drop_S _ _ _ Hh). simpl.
    destruct (msgs !! S i) as [a|] eqn:Ha.
    + by rewrite (drop_S _ _ _ Ha).
    + apply lookup_ge_None in Ha. by rewrite !drop_ge by lia.
  - (* a turn is out of place: excluded by the alternation *)
    destruct (lookup_lt_is_Some_2 msgs i) as [h Hh]; [done|].
    by rewrite (interaction_of_pair _ _ _ Halt Hi Hh) in Heq.
Qed.

Lemma pairUp_length l : length (pairUp l) = Nat.div2 (S (length l)).
Proof.
  induction l as [l IH] using (induction_ltof1 _ (@length _)); unfold ltof in IH.
  destruct l as [|h [|a rest]]; [done|done|].
  simpl. rewrite IH by (simpl; lia). done.
Qed.

Lemma pairUp_lookup l : forall (k : nat) x,
  pairUp l !! k = Some x ->
  Some (humanMessage x) = toSerializedInteractionMessage <$> l !! (2 * k)%nat /\
  assistantMessage x = toSerializedInteractionMessage <$> l !! (2 * k + 1)%nat.
Proof.
  induction l as [l IH] using (induction_ltof1 _ (@length _)); unfold ltof in IH.
  destruct l as [|h [|a rest]]; intros k x; [done| |].
  - destruct k; [|done]. by intros [= <-].
  - destruct k as [|k]; [by intros [= <-]|].
    simpl. intros Hx. apply IH in Hx; [|simpl; lia].
    replace (k + S (k + 0))%nat with (S (2 * k)) by lia.
    replace (k + S (k + 0) + 1)%nat with (S (2 * k + 1)) by lia.
    done.
Qed.

(** C8. The serializer pairs the turns two at a time: on a transcript with a
    human turn at every even index and an assistant turn at every odd one,
    interaction [k] holds turn [2k] and turn [2k+1], the latter [null] when
    the transcript ends on turn [2k]. In the scenario hi, hello, bye on a new
    model there are exactly two interactions, the first with both messages,
    the second with the human text bye and a [null] assistant message. *)
Theorem serialization_pairs_turns :
  (forall (h : Store) this,
     alternating (messages this) ->
     exists r h',
       toSerializedChatTranscript h this = (Normal r, h') /\
       length (interactions r) = Nat.div2 (S (length (messages this))) /\
       forall (k : nat) x,
         interactions r !! k = Some x ->
         Some (humanMessage x)
         = toSerializedInteractionMessage <$> messages this !! (2 * k)%nat /\
         assistantMessage x
         = toSerializedInteractionMessage <$> messages this !! (2 * k + 1)%nat) /\
  (forall (model session : string) (h : Store),
     exists this,
       calls scenario (newModel model session) = (Normal tt, this) /\
       toSerializedChatTranscript h this
       = (Normal
            {| id := session; chatModel := model; chatTitle := None;
               lastInteractionTimestamp := session;
               interactions :=
                 [ {| humanMessage :=
                        {| speaker := human; text := Some "hi";
                           displayText := Some (createDisplayTextWithFileLinks "hi" []);
                           contextFiles := None; error := None |};
                      assistantMessage :=
                        Some {| speaker := assistant; text := Some "hello";
                                displayText := Some (reformatBotMessageForChat "hello" "");
                                contextFiles := None; error := None |} |};
                   {| humanMessage :=
                        {| speaker := human; text := Some "bye";
                           displayText := Some (createDisplayTextWithFileLinks "bye" []);
                           contextFiles := None; error := None |};
                      assistantMessage := None |} ];
               enhancedContext := None |},
          h)).
Proof.
  split.
  - intros h this Halt. unfold toSerializedChatTranscript.
    rewrite (interactionsLoop_alternating _ 0 [] Halt eq_refl). simpl.
    destruct (selectedRepos this) as [own|]; [destruct (mapSpread h own) as [copy h']|];
      eexists _, _; (split; [reflexivity|]); simpl;
      (split; [apply pairUp_length|apply pairUp_lookup]).
  - intros model session h. eexists. split; [reflexivity|].
    unfold toSerializedChatTranscript. simpl.
    rewrite interactionsLoop_alternating; [done| |done].
    intros [|[|[|i]]] m; simpl; by intros [= <-].
Qed.

(** *** Selected repos *)

Lemma object_at_agree (h h' : Store) (l : loc) :
  h' !! l = h !! l -> object_at h' l = object_at h l.
Proof. unfold object_at. by intros ->. Qed.

Lemma array_at_agree (h h' : Store) (l : loc) :
  h' !! l = h !! l -> array_at h' l = array_at h l.
Proof. unfold array_at. by intros ->. Qed.

Lemma alloc_spec (h : Store) (c : Cell) :
  (fst (alloc h c) ∉ dom h) /\ snd (alloc h c) = <[fst (alloc h c) := c]> h.
Proof. split; [apply is_fresh|done]. Qed.

Lemma spreadEach_spec (elems : list loc) : forall (h : Store) elems' h',
  Forall (fun r => r ∈ dom h) elems ->
  spreadEach h elems = (elems', h') ->
  Forall (fun r' => (r' ∉ dom h) /\ r' ∈ dom h') elems' /\
  (forall l : loc, l ∈ dom h -> h' !! l = h !! l) /\
  object_at h' <$> elems' = object_at h <$> elems.
Proof.
  induction elems as [|r rest IH]; intros h elems' h' Hlive; cbn [spreadEach].
  - intros [= <- <-]. by repeat split.
  - destruct (alloc_spec h (ObjectCell (object_at h r))) as [Hfresh Hh1].
    destruct (alloc h (ObjectCell (object_at h r))) as [r' h1]. cbn [fst snd] in *.
    destruct (spreadEach h1 rest) as [rest' h2] eqn:Hrest.
    intros [= <- <-].
    apply Forall_cons in Hlive as [Hr Hlive].
    assert (Hframe1 : forall l : loc, l ∈ dom h -> h1 !! l = h !! l).
    { intros l Hl. subst h1. apply lookup_insert_ne. by intros <-. }
    assert (Hdom1 : forall l : loc, l ∈ dom h -> l ∈ dom h1).
    { intros l Hl. subst h1. rewrite dom_insert_L. apply elem_of_union. by right. }
    destruct (IH h1 rest' h2) as (Hnew & Hframe2 & Hvals); [|done|].
    { eapply Forall_impl; [exact Hlive|]. auto. }
    assert (Hr' : r' ∈ dom h1).
    { subst h1. rewrite dom_insert_L. apply elem_of_union. left. by apply elem_of_singleton. }
    split; [|split].
    + constructor.
      * split; [done|]. apply elem_of_dom. rewrite (Hframe2 _ Hr'). by apply elem_of_dom.
      * eapply Forall_impl; [exact Hnew|]. intros l [Hl1 Hl2]. split; [|done].
        intros Hl. by apply Hl1, Hdom1.
    + intros l Hl. rewrite (Hframe2 l) by auto. auto.
    + rewrite !fmap_cons. f_equal.
      * rewrite (object_at_agree h1 h2) by auto.
        unfold object_at at 1. subst h1. by rewrite lookup_insert_eq.
      * rewrite Hvals. apply Forall_fmap_ext_1.
        eapply Forall_impl; [exact Hlive|]. intros l Hl. simpl.
        apply object_at_agree. auto.
Qed.

Lemma mapSpread_spec (h : Store) (repos copy : loc) (h' : Store) :
  liveArray h repos ->
  mapSpread h repos = (copy, h') ->
  cellsOf h' copy ## dom h /\
  cellsOf h' copy ⊆ dom h' /\
  (forall l : loc, l ∈ dom h -> h' !! l = h !! l) /\
  reposValue h' copy = reposValue h repos.
Proof.
  unfold mapSpread, liveArray. intros Hlive.
  destruct (spreadEach h (array_at h repos)) as [elems h1] eqn:Hspread.
  destruct (spreadEach_spec _ _ _ _ Hlive Hspread) as (Hnew & Hframe & Hvals).
  destruct (alloc_spec h1 (ArrayCell elems)) as [Hfresh Hh'].
  destruct (alloc h1 (ArrayCell elems)) as [a h2]. cbn [fst snd] in *.
  intros [= <- <-]. subst h2.
  assert (Hsub : forall l : loc, l ∈ dom h -> l ∈ dom h1).
  { intros l Hl. apply elem_of_dom. rewrite (Hframe l Hl). by apply elem_of_dom. }
  assert (Harr : array_at (<[a:=ArrayCell elems]> h1) a = elems).
  { unfold array_at. by rewrite lookup_insert_eq. }
  unfold cellsOf, reposValue. rewrite Harr.
  split; [|split; [|split]].
  - apply disjoint_union_l. split; [set_solver|].
    intros l Hl%elem_of_list_to_set Hl'.
    rewrite Forall_forall in Hnew. by destruct (Hnew l Hl).
  - apply union_subseteq. split; [set_solver|].
    intros l Hl%elem_of_list_to_set.
    rewrite Forall_forall in Hnew. destruct (Hnew l Hl) as [_ Hl1].
    rewrite dom_insert_L. apply elem_of_union. by right.
  - intros l Hl. rewrite lookup_insert_ne; [auto|].
    intros <-. by apply Hfresh, Hsub.
  - rewrite <- Hvals. apply Forall_fmap_ext_1.
    eapply Forall_impl; [exact Hnew|]. intros l [_ Hl]. simpl.
    apply object_at_agree, lookup_insert_ne. by intros <-.
Qed.

Lemma outsideWrites_owned (owned : gset loc) (h h' : Store) :
  outsideWrites owned h h' -> forall l : loc, l ∈ owned -> h' !! l = h !! l.
Proof.
  induction 1 as [|h h' l' c _ IH Hl']; intros l Hl; [done|].
  rewrite lookup_insert_ne; [auto|]. by intros <-.
Qed.

(** C10. [setSelectedRepos(repos)] stores fresh cells only: none of the
    cells the model then owns existed before the call. Whatever code outside
    the class writes afterwards to cells the model does not own (the caller's
    array, the caller's repo objects, new cells), [getSelectedRepos()] returns
    an array whose elements equal, one by one, the repos as they were at the
    call; the returned array and objects are fresh as well, and a read writes
    no existing cell. [undefined] is stored and read back as [undefined]. *)
Theorem selectedRepos_isolated (h : Store) this :
  (forall (repos : loc) (h1 : Store) this1,
     liveArray h repos ->
     setSelectedRepos (Some repos) h this = (h1, this1) ->
     ownedCells h1 this1 ## dom h /\
     forall h2 : Store,
       outsideWrites (ownedCells h1 this1) h1 h2 ->
       exists (copy : loc) (h3 : Store),
         getSelectedRepos h2 this1 = (Some copy, h3, this1) /\
         reposValue h3 copy = reposValue h repos /\
         cellsOf h3 copy ## dom h2 /\
         ownedCells h1 this1 ⊆ dom h2 /\
         (forall l : loc, l ∈ dom h2 -> h3 !! l = h2 !! l)) /\
  (forall h' : Store,
     fst (setSelectedRepos None h this) = h /\
     getSelectedRepos h' (snd (setSelectedRepos None h this))
     = (None, h', snd (setSelectedRepos None h this))).
Proof.
  split; [|done].
  intros repos h1 this1 Hlive. unfold setSelectedRepos.
  destruct (mapSpread h repos) as [own h1'] eqn:Hset. intros [= <- <-].
  destruct (mapSpread_spec _ _ _ _ Hlive Hset) as (Hfresh & Hdom & Hframe & Hvals).
  unfold ownedCells. simpl. split; [done|].
  intros h2 Hwrites.
  pose proof (outsideWrites_owned _ _ _ Hwrites) as Hkept.
  assert (Harr : array_at h2 own = array_at h1' own).
  { apply array_at_agree, Hkept. unfold cellsOf. set_solver. }
  assert (Helems : forall r : loc, r ∈ array_at h1' own -> h2 !! r = h1' !! r).
  { intros r Hr. apply Hkept. unfold cellsOf. set_solver. }
  assert (Hsub : cellsOf h1' own ⊆ dom h2).
  { intros l Hl. apply elem_of_dom. rewrite (Hkept l Hl). apply elem_of_dom. auto. }
  assert (Hlive2 : liveArray h2 own).
  { unfold liveArray. rewrite Harr. apply Forall_forall. intros r Hr.
    apply Hsub. unfold cellsOf. set_solver. }
  unfold getSelectedRepos. simpl.
  destruct (mapSpread h2 own) as [copy h3] eqn:Hget.
  destruct (mapSpread_spec _ _ _ _ Hlive2 Hget) as (Hfresh' & _ & Hframe' & Hvals').
  exists copy, h3. split; [done|]. split; [|done].
  rewrite Hvals', <- Hvals. unfold reposValue. rewrite Harr.
  apply Forall_fmap_ext_1, Forall_forall. intros r Hr.
  by apply object_at_agree, Helems.
Qed.

End Properties.

(** ** Further properties of the transcript *)

Section MoreProperties.
Context `{C : Collaborators}.
Implicit Types (this : SimpleChatModel) (l : list ChatMessage) (m : ChatMessage).

(** *** What a call did, read back from its result *)

Lemma speaker_is_last_snoc l m (s : Speaker) :
  speaker_is (last (l ++ [m])) s = Speaker_eqb (speaker m) s.
Proof. by rewrite last_snoc. Qed.

Lemma addHumanMessage_cases this (a : MessageSansSpeaker) :
  (speaker_is (last (messages this)) human = false /\
   addHumanMessage a this
   = (Normal tt, with_messages this (messages this ++ [humanTurn a]))) \/
  (speaker_is (last (messages this)) human = true /\
   addHumanMessage a this
   = (Throw "Cannot add a user message after a user message", this)).
Proof.
  unfold addHumanMessage, bind, messages_at. rewrite at_last.
  destruct (speaker_is (last (messages this)) human); [right|left]; done.
Qed.

Lemma addBotMessage_cases this (a : MessageSansSpeaker) (d : option string) :
  (speaker_is (last (messages this)) assistant = false /\
   addBotMessage a d this
   = (Normal tt, with_messages this (messages this ++ [assistantTurn a d None]))) \/
  (exists l m,
      messages this = l ++ [m] /\ speaker m = assistant /\ JS.truthy (text m) = true /\
      addBotMessage a d this
      = (Throw "Cannot add a bot message after a bot message", this)) \/
  (exists l m,
      messages this = l ++ [m] /\ speaker m = assistant /\ JS.truthy (text m) = false /\
      addBotMessage a d this
      = (Normal tt, with_messages this (l ++ [assistantTurn a d (error m)]))).
Proof.
  destruct (speaker_is (last (messages this)) assistant) eqn:Hs.
  - right. destruct (messages this) as [|m l _] eqn:E using rev_ind; [done|].
    rewrite speaker_is_last_snoc in Hs. apply Speaker_eqb_eq in Hs.
    destruct (JS.truthy (text m)) eqn:Ht; [left|right]; exists l, m; repeat split; try done.
    + eapply addBotMessage_throws; [|done|done]. by rewrite E, last_snoc.
    + by apply addBotMessage_replaces.
  - left. split; [done|]. by apply addBotMessage_appends.
Qed.

Lemma addErrorAsBotMessage_cases this (e : Error) :
  (speaker_is (last (messages this)) assistant = false /\
   addErrorAsBotMessage e this
   = (Normal tt,
      with_messages this (messages this ++ [errorTurn None (errorToChatError e)]))) \/
  (exists l m,
      messages this = l ++ [m] /\ speaker m = assistant /\
      addErrorAsBotMessage e this
      = (Normal tt, with_messages this (l ++ [errorTurn (Some m) (errorToChatError e)]))).
Proof.
  destruct (speaker_is (last (messages this)) assistant) eqn:Hs.
  - right. destruct (messages this) as [|m l _] eqn:E using rev_ind; [done|].
    rewrite speaker_is_last_snoc in Hs. apply Speaker_eqb_eq in Hs.
    exists l, m. repeat split; try done. by apply addErrorAsBotMessage_replaces.
  - left. split; [done|]. by apply addErrorAsBotMessage_appends.
Qed.

Lemma setLastMessageContext_cases this (items : list ContextItem) :
  (messages this = [] /\
   setLastMessageContext items this = (Throw "no last message", this)) \/
  (exists l m,
      messages this = l ++ [m] /\ speaker m = assistant /\
      setLastMessageContext items this
      = (Throw "Cannot set new context used for bot message", this)) \/
  (exists l m,
      messages this = l ++ [m] /\ speaker m = human /\
      setLastMessageContext items this
      = (Normal tt,
         with_messages this
           (l ++ [set_contextFiles m
                    (List.filter (fun c => negb (isCodyIgnoredFile (uri c))) items)]))).
Proof.
  destruct (messages this) as [|m l _] eqn:E using rev_ind.
  - left. split; [done|].
    unfold setLastMessageContext, bind, messages_at. by rewrite at_last, E.
  - right. destruct (speaker m) eqn:Hm; [right|left]; exists l, m; repeat split; try done.
    + by apply setLastMessageContext_assigns.
    + unfold setLastMessageContext, bind, messages_at.
      by rewrite at_last, E, last_snoc, Hm.
Qed.

Lemma removeMessagesFromIndex_cases this (index : Z) (expected : Speaker) :
  (exists msg,
      speakerOf (JS.at_ (messages this) index) <> Some expected /\
      removeMessagesFromIndex index expected this = (Throw msg, this)) \/
  (exists (k : nat) m,
      (k < length (messages this))%nat /\ messages this !! k = Some m /\
      speaker m = expected /\
      Z.of_nat k
      = (if index <? 0 then Z.of_nat (length (messages this)) + index else index) /\
      removeMessagesFromIndex index expected this
      = (Normal tt, with_messages this (take k (messages this)))).
Proof.
  unfold removeMessagesFromIndex, bind, isEmpty, messages_at, messages_splice, speaker_is.
  destruct (JS.at_ (messages this) index) as [m|] eqn:Hat.
  - destruct (at_Some_position _ _ _ Hat) as (k & Hk & Hm & Hidx & Hstart).
    destruct (Z.eqb_spec (Z.of_nat (length (messages this))) 0); [lia|].
    rewrite Hat. change (speakerOf (Some m)) with (Some (speaker m)).
    destruct (Speaker_eqb (speaker m) expected) eqn:Es; cbn [negb].
    + right. exists k, m. apply Speaker_eqb_eq in Es.
      repeat split; try done. unfold JS.splice. by rewrite Hstart.
    + left. eexists. split; [|done]. apply Speaker_eqb_neq in Es. congruence.
  - left. destruct (Z.eqb_spec (Z.of_nat (length (messages this))) 0);
      [by eexists|]. rewrite Hat. by eexists.
Qed.

(** *** Rejected calls *)

(** X1. A second [addHumanMessage] right after a successful one throws and
    leaves the model as the first call left it. *)
Theorem addHumanMessage_twice_rejected this this1 (a b : MessageSansSpeaker) :
  addHumanMessage a this = (Normal tt, this1) ->
  addHumanMessage b this1
  = (Throw "Cannot add a user message after a user message", this1).
Proof.
  destruct (addHumanMessage_cases this a) as [[_ ->]|[_ ->]]; [|done].
  intros [= <-]. eapply addHumanMessage_throws; [simpl; by rewrite last_snoc|done].
Qed.

(** X2. After a successful [addBotMessage] whose message has a non-empty
    text, a second [addBotMessage] throws and leaves the model unchanged. *)
Theorem addBotMessage_twice_rejected this this1 (a b : MessageSansSpeaker)
    (d d' : option string) :
  JS.truthy (init_text a) = true ->
  addBotMessage a d this = (Normal tt, this1) ->
  addBotMessage b d' this1
  = (Throw "Cannot add a bot message after a bot message", this1).
Proof.
  intros Ha.
  destruct (addBotMessage_cases this a d)
    as [[_ ->]|[(l & m & _ & _ & _ & ->)|(l & m & _ & _ & _ & ->)]]; [|done|];
    intros [= <-]; (eapply addBotMessage_throws; [simpl; by rewrite last_snoc|done|done]).
Qed.

(** X3. After a successful [addBotMessage] whose message has no text (or an
    empty one), the next [addBotMessage] does not throw: it replaces that
    turn, so the transcript keeps its length, and the new turn carries the
    [error] of the turn it replaces. *)
Theorem addBotMessage_empty_text_replaced this this1 (a b : MessageSansSpeaker)
    (d d' : option string) :
  JS.truthy (init_text a) = false ->
  addBotMessage a d this = (Normal tt, this1) ->
  exists l placeholder,
    messages this1 = l ++ [placeholder] /\
    addBotMessage b d' this1
    = (Normal tt, with_messages this1 (l ++ [assistantTurn b d' (error placeholder)])).
Proof.
  intros Ha.
  destruct (addBotMessage_cases this a d)
    as [[_ ->]|[(l & m & _ & _ & _ & ->)|(l & m & _ & _ & _ & ->)]]; [|done|];
    intros [= <-]; eexists _, _; (split; [reflexivity|]);
    by apply addBotMessage_replaces.
Qed.

(** X4. The [displayText] and [error] properties of the message given to
    [addBotMessage] never reach the transcript: two messages with the same
    [text] and [contextFiles] have the same effect. *)
Theorem addBotMessage_overrides_fields this (a a' : MessageSansSpeaker) (d : option string) :
  init_text a = init_text a' -> init_contextFiles a = init_contextFiles a' ->
  addBotMessage a d this = addBotMessage a' d this.
Proof.
  intros Ht Hc.
  assert (Hturn : forall err, assistantTurn a d err = assistantTurn a' d err).
  { intros err. unfold assistantTurn. by rewrite Ht, Hc. }
  destruct (addBotMessage_cases this a d)
    as [[Hs ->]|[(l & m & E & Hm & Htext & ->)|(l & m & E & Hm & Htext & ->)]].
  - by rewrite addBotMessage_appends, Hturn.
  - symmetry. eapply addBotMessage_throws; [|done|done]. by rewrite E, last_snoc.
  - by rewrite (addBotMessage_replaces _ _ _ l m), Hturn.
Qed.

(** X5. Of two errors recorded one after the other only the second stays:
    [addErrorAsBotMessage(e1)] then [addErrorAsBotMessage(e2)] leaves the
    model that [addErrorAsBotMessage(e2)] alone leaves. *)
Theorem addErrorAsBotMessage_last_error_wins this (e1 e2 : Error) :
  bind (addErrorAsBotMessage e1) (fun _ => addErrorAsBotMessage e2) this
  = addErrorAsBotMessage e2 this.
Proof.
  unfold bind at 1.
  destruct (addErrorAsBotMessage_cases this e1) as [[Hs ->]|(l & m & E & Hm & ->)].
  - rewrite (addErrorAsBotMessage_replaces _ e2 (messages this)
               (errorTurn None (errorToChatError e1))) by done.
    by rewrite addErrorAsBotMessage_appends.
  - rewrite (addErrorAsBotMessage_replaces _ e2 l
               (errorTurn (Some m) (errorToChatError e1))) by done.
    by rewrite (addErrorAsBotMessage_replaces _ e2 l m).
Qed.

(** X6. [setLastMessageContext] throws on an empty transcript and on a
    transcript that ends with an assistant turn; the model is unchanged in
    both cases. *)
Theorem setLastMessageContext_rejected this (items : list ContextItem) :
  (messages this = [] ->
   setLastMessageContext items this = (Throw "no last message", this)) /\
  (forall m, last (messages this) = Some m -> speaker m = assistant ->
     setLastMessageContext items this
     = (Throw "Cannot set new context used for bot message", this)).
Proof.
  destruct (setLastMessageContext_cases this items)
    as [[E ->]|[(l & m & E & Hm & ->)|(l & m & E & Hm & ->)]].
  - split; [done|]. intros m. by rewrite E.
  - split; [rewrite E; by destruct l|done].
  - split; [rewrite E; by destruct l|].
    intros m'. rewrite E, last_snoc. intros [= <-]. congruence.
Qed.

(** X7. [setLastMessageContext] overwrites the context, it does not merge:
    after a successful call with some items, a call with other items has the
    result it would have had without the first call. *)
Theorem setLastMessageContext_overwrites this this1 (items1 items2 : list ContextItem) :
  setLastMessageContext items1 this = (Normal tt, this1) ->
  setLastMessageContext items2 this1 = setLastMessageContext items2 this.
Proof.
  destruct (setLastMessageContext_cases this items1)
    as [[E ->]|[(l & m & E & Hm & ->)|(l & m & E & Hm & ->)]]; [done|done|].
  intros [= <-].
  rewrite (setLastMessageContext_assigns this items2 l m E Hm).
  by rewrite (setLastMessageContext_assigns _ items2 l
                (set_contextFiles m
                   (List.filter (fun c => negb (isCodyIgnoredFile (uri c))) items1))).
Qed.

(** *** Queries and truncation *)

(** X8. [getLastHumanMessage] returns the human turn at the highest index,
    and [undefined] exactly when the transcript has no human turn; the model
    is unchanged. *)
Theorem getLastHumanMessage_most_recent this :
  exists r,
    getLastHumanMessage this = (Normal r, this) /\
    match r with
    | Some m => exists i, lastTurnOf human (messages this) i m
    | None => forall m, m ∈ messages this -> speaker m <> human
    end.
Proof.
  eexists. split; [reflexivity|]. apply findLast_human_spec.
Qed.



(** *** The mutators together *)

(** X10. No mutator changes the model when it throws: every [throw] comes
    before the first write. *)
Theorem mutate_atomic (mu : Mutation) this this' (msg : string) :
  mutate mu this = (Throw msg, this') -> this' = this.
Proof.
  destruct mu as [a|a d|e|items|index expected|title]; simpl.
  - destruct (addHumanMessage_cases this a) as [[_ ->]|[_ ->]]; congruence.
  - destruct (addBotMessage_cases this a d)
      as [[_ ->]|[(l & m & _ & _ & _ & ->)|(l & m & _ & _ & _ & ->)]]; congruence.
  - destruct (addErrorAsBotMessage_cases this e) as [[_ ->]|(l & m & _ & _ & ->)];
      congruence.
  - destruct (setLastMessageContext_cases this items)
      as [[_ ->]|[(l & m & _ & _ & ->)|(l & m & _ & _ & ->)]]; congruence.
  - destruct (removeMessagesFromIndex_cases this index expected)
      as [(msg' & _ & ->)|(k & m & _ & _ & _ & _ & ->)]; congruence.
  - done.
Qed.

Lemma alternating_next l m :
  alternating (l ++ [m]) ->
  speakerAtParity (length (l ++ [m]))
  = match speaker m with human => assistant | assistant => human end.
Proof.
  intros [_ Hpar]%alternating_snoc_inv.
  by rewrite length_app, Nat.add_1_r, speakerAtParity_S, Hpar.
Qed.

Lemma alternating_take l (k : nat) : alternating l -> alternating (take k l).
Proof.
  intros Halt i m Hi. apply (Halt i).
  apply lookup_take_Some in Hi. by destruct Hi.
Qed.

(** X11. Every mutator that returns normally on a transcript with a human
    turn at every even index and an assistant turn at every odd index leaves
    such a transcript, provided the two methods that push an assistant turn
    are not called on an empty transcript. *)
Theorem mutate_keeps_alternation (mu : Mutation) this this' :
  alternating (messages this) ->
  (pushesAssistant mu = true -> messages this <> []) ->
  mutate mu this = (Normal tt, this') ->
  alternating (messages this').
Proof.
  intros Halt Hne.
  destruct mu as [a|a d|e|items|index expected|title]; simpl in *.
  - destruct (addHumanMessage_cases this a) as [[Hs ->]|[_ ->]]; [|done].
    intros [= <-]. simpl. apply alternating_snoc; [done|].
    destruct (messages this) as [|m l _] eqn:E using rev_ind; [done|].
    rewrite (alternating_next _ _ Halt). rewrite speaker_is_last_snoc in Hs.
    by destruct (speaker m).
  - specialize (Hne eq_refl).
    destruct (addBotMessage_cases this a d)
      as [[Hs ->]|[(l & m & _ & _ & _ & ->)|(l & m & E & Hm & _ & ->)]]; [|done|];
      intros [= <-]; simpl.
    + apply alternating_snoc; [done|].
      destruct (messages this) as [|m l _] eqn:E using rev_ind; [done|].
      rewrite (alternating_next _ _ Halt). rewrite speaker_is_last_snoc in Hs.
      by destruct (speaker m).
    + rewrite E in Halt. apply alternating_snoc_inv in Halt as [Hl Hpar].
      apply alternating_snoc; [done|]. simpl. congruence.
  - specialize (Hne eq_refl).
    destruct (addErrorAsBotMessage_cases this e) as [[Hs ->]|(l & m & E & Hm & ->)];
      intros [= <-]; simpl.
    + apply alternating_snoc; [done|].
      destruct (messages this) as [|m l _] eqn:E using rev_ind; [done|].
      rewrite (alternating_next _ _ Halt). rewrite speaker_is_last_snoc in Hs.
      by destruct (speaker m).
    + rewrite E in Halt. apply alternating_snoc_inv in Halt as [Hl Hpar].
      apply alternating_snoc; [done|]. simpl. congruence.
  - destruct (setLastMessageContext_cases this items)
      as [[_ ->]|[(l & m & _ & _ & ->)|(l & m & E & Hm & ->)]]; [done|done|].
    intros [= <-]. simpl.
    rewrite E in Halt. apply alternating_snoc_inv in Halt as [Hl Hpar].
    by apply alternating_snoc.
  - destruct (removeMessagesFromIndex_cases this index expected)
      as [(msg' & _ & ->)|(k & m & _ & _ & _ & _ & ->)]; [done|].
    intros [= <-]. simpl. by apply alternating_take.
  - by intros [= <-].
Qed.

(** X12. The three methods that push a turn never touch the turns before the
    last one and no other field of the model: on success the transcript is
    not empty, it is as long as before or one turn longer, and every turn
    before the former last turn is where it was. *)
Theorem mutate_push_frame (mu : Mutation) this this' :
  pushesTurn mu = true ->
  mutate mu this = (Normal tt, this') ->
  this' = with_messages this (messages this') /\
  messages this' <> [] /\
  (length (messages this) <= length (messages this') <= length (messages this) + 1)%nat /\
  forall i : nat, (S i < length (messages this))%nat ->
    messages this' !! i = messages this !! i.
Proof.
  assert (Happ : forall x,
    messages (with_messages this (messages this ++ [x])) <> [] /\
    (length (messages this)
     <= length (messages (with_messages this (messages this ++ [x])))
     <= length (messages this) + 1)%nat /\
    forall i : nat, (S i < length (messages this))%nat ->
      messages (with_messages this (messages this ++ [x])) !! i = messages this !! i).
  { intros x. simpl. split; [by destruct (messages this)|].
    rewrite length_app. simpl. split; [lia|].
    intros i Hi. apply lookup_app_l. lia. }
  assert (Hrep : forall l' m x, messages this = l' ++ [m] ->
    messages (with_messages this (l' ++ [x])) <> [] /\
    (length (messages this)
     <= length (messages (with_messages this (l' ++ [x])))
     <= length (messages this) + 1)%nat /\
    forall i : nat, (S i < length (messages this))%nat ->
      messages (with_messages this (l' ++ [x])) !! i = messages this !! i).
  { intros l' m x E. simpl. split; [by destruct l'|].
    rewrite E, !length_app. simpl. split; [lia|].
    intros i Hi. rewrite !lookup_app_l by lia. done. }
  destruct mu as [a|a d|e|items|index expected|title]; simpl; try done; intros _.
  - destruct (addHumanMessage_cases this a) as [[_ ->]|[_ ->]]; [|done].
    intros [= <-]. split; [done|]. apply Happ.
  - destruct (addBotMessage_cases this a d)
      as [[_ ->]|[(l & m & _ & _ & _ & ->)|(l & m & E & _ & _ & ->)]]; [|done|];
      intros [= <-]; (split; [done|]); [apply Happ|by eapply Hrep].
  - destruct (addErrorAsBotMessage_cases this e) as [[_ ->]|(l & m & E & _ & ->)];
      intros [= <-]; (split; [done|]); [apply Happ|by eapply Hrep].
Qed.

(** X13. The edit flow: on an alternating transcript, once
    [removeMessagesFromIndex(index, 'human')] has succeeded,
    [addHumanMessage] does not throw and appends its turn. *)
Theorem addHumanMessage_after_truncation this this1 (index : Z) (a : MessageSansSpeaker) :
  alternating (messages this) ->
  removeMessagesFromIndex index human this = (Normal tt, this1) ->
  addHumanMessage a this1
  = (Normal tt, with_messages this1 (messages this1 ++ [humanTurn a])).
Proof.
  intros Halt.
  destruct (removeMessagesFromIndex_cases this index human)
    as [(msg' & _ & ->)|(k & m & Hk & Hm & Hs & _ & ->)]; [done|].
  intros [= <-].
  destruct (addHumanMessage_cases (with_messages this (take k (messages this))) a)
    as [[_ ->]|[Hlast _]]; [done|exfalso].
  simpl in Hlast. rewrite last_lookup, length_take, Nat.min_l in Hlast by lia.
  destruct k as [|k]; [done|]. simpl in Hlast.
  rewrite lookup_take_lt in Hlast by lia.
  destruct (lookup_lt_is_Some_2 (messages this) k) as [m' Hm']; [lia|].
  rewrite Hm' in Hlast. unfold speaker_is in Hlast. simpl in Hlast.
  apply Speaker_eqb_eq in Hlast.
  pose proof (Halt _ _ Hm) as Hp. pose proof (Halt _ _ Hm') as Hp'.
  rewrite speakerAtParity_S in Hp. rewrite Hs, <- Hp', Hlast in Hp. done.
Qed.

(** *** Display text and serialization *)

(** X14. Resolving the display text is idempotent: a turn that went through
    [toSerializedInteractionMessage] resolves to the same display text, and
    passing it through again changes nothing. *)
Theorem toSerializedInteractionMessage_idempotent m :
  getDisplayText (toSerializedInteractionMessage m) = getDisplayText m /\
  toSerializedInteractionMessage (toSerializedInteractionMessage m)
  = toSerializedInteractionMessage m.
Proof.
  assert (H : getDisplayText (toSerializedInteractionMessage m) = getDisplayText m).
  { unfold getDisplayText at 1. cbn [toSerializedInteractionMessage displayText speaker
                                      text contextFiles].
    destruct (JS.truthy (getDisplayText m)) eqn:Hd; [done|].
    unfold getDisplayText in *.
    destruct (JS.truthy (displayText m)) eqn:Hm; [congruence|done]. }
  split; [done|].
  unfold toSerializedInteractionMessage at 1. rewrite H. done.
Qed.

Lemma messageToSerializedChatInteraction_Normal (ho ao : option ChatMessage) x :
  messageToSerializedChatInteraction ho ao = Normal x ->
  (exists h, ho = Some h /\ speaker h = human) /\
  (forall a, ao = Some a -> speaker a = assistant).
Proof.
  unfold messageToSerializedChatInteraction.
  destruct ho as [h|]; [|done].
  destruct (Speaker_eqb (speaker h) human) eqn:Hh; [|done]. simpl.
  apply Speaker_eqb_eq in Hh. intros Hx. split; [by exists h|].
  intros a ->. destruct (Speaker_eqb (speaker a) assistant) eqn:Ha; [|done].
  by apply Speaker_eqb_eq.
Qed.

Lemma interactionsLoop_Normal l (i : nat) acc :
  Nat.even i = true ->
  forall r, interactionsLoop l i acc = Normal r ->
  forall (j : nat) m, (i <= j)%nat -> l !! j = Some m -> speaker m = speakerAtParity j.
Proof.
  funelim (interactionsLoop l i acc); intros Hi r Hr j m Hj Hm.
  - apply lookup_lt_Some in Hm. lia.
  - apply messageToSerializedChatInteraction_Normal in Heq as [(h & Hh & Hsh) Ha].
    rewrite at_nonneg in Ha by lia.
    replace (Z.to_nat (Z.of_nat i + 1)) with (S i) in Ha by lia.
    replace (i + 2)%nat with (S (S i)) in * by lia.
    destruct (decide (j = i)) as [->|].
    { unfold speakerAtParity. rewrite Hi. congruence. }
    destruct (decide (j = S i)) as [->|].
    { unfold speakerAtParity. rewrite Nat.even_succ, <- Nat.negb_even, Hi. simpl. auto. }
    eapply H; [by rewrite Nat.even_succ_succ|exact Hr|lia|done].
  - done.
Qed.

(** X15. The serializer succeeds exactly on the transcripts that have a human
    turn at every even index and an assistant turn at every odd index; on
    any other transcript it throws and the store is unchanged. *)
Theorem serialization_checks_alternation (h : Store) this :
  match toSerializedChatTranscript h this with
  | (Normal _, _) => alternating (messages this)
  | (Throw _, h') => ~ alternating (messages this) /\ h' = h
  end.
Proof.
  unfold toSerializedChatTranscript.
  destruct (interactionsLoop (messages this) 0 []) as [r|msg] eqn:E.
  - assert (Halt : alternating (messages this)).
    { intros j m Hm.
      eapply (interactionsLoop_Normal _ 0 [] eq_refl r E); [lia|done]. }
    destruct (selectedRepos this) as [own|]; [|done].
    by destruct (mapSpread h own).
  - split; [|done]. intros Halt.
    by rewrite (interactionsLoop_alternating _ 0 [] Halt eq_refl) in E.
Qed.

(** X16. The serialized transcript holds a copy of the selected repos, never
    the model's own array: [enhancedContext] is present exactly when
    [selectedRepos] is set, its array and objects are fresh cells with the
    values of the model's repos, and no existing cell is written. *)
Theorem serialization_copies_repos (h h' : Store) this r :
  toSerializedChatTranscript h this = (Normal r, h') ->
  match selectedRepos this with
  | None => enhancedContext r = None /\ h' = h
  | Some own =>
      liveArray h own ->
      exists copy : loc,
        enhancedContext r = Some {| ec_selectedRepos := copy |} /\
        reposValue h' copy = reposValue h own /\
        cellsOf h' copy ## dom h /\
        forall l : loc, l ∈ dom h -> h' !! l = h !! l
  end.
Proof.
  unfold toSerializedChatTranscript.
  destruct (interactionsLoop (messages this) 0 []) as [x|msg]; [|done].
  destruct (selectedRepos this) as [own|]; [|by intros [= <- <-]].
  destruct (mapSpread h own) as [copy h1] eqn:Hcopy.
  intros [= <- <-] Hlive.
  destruct (mapSpread_spec _ _ _ _ Hlive Hcopy) as (Hfresh & _ & Hframe & Hvals).
  by exists copy.
Qed.

(** X17. The two fallbacks of the title agree: whenever the custom title is
    not set (or empty), [getChatTitle()] is [getChatPanelTitle] of the display
    text of [getLastHumanMessage()], also when there is no human turn or no
    display text. *)
Theorem getChatTitle_is_panel_title this :
  JS.truthy (customChatTitle this) = false ->
  exists r,
    getLastHumanMessage this = (Normal r, this) /\
    getChatTitle this
    = (Normal (ChatHelpers.getChatPanelTitle (r ≫= getDisplayText) true), this).
Proof.
  intros Hcustom. eexists. split; [reflexivity|].
  unfold getChatTitle.
  destruct (customChatTitle this) as [title|]; [rewrite Hcustom|];
    unfold bind, getLastHumanMessage, ret;
    (destruct (JS.truthy (_ ≫= _)) eqn:Ht; [done|]);
    (destruct (_ ≫= _) as [d|]; [|done]);
    unfold ChatHelpers.getChatPanelTitle; by rewrite Ht.
Qed.

(** X18. [prepareChatMessage] keeps the speaker, the text and the error of a
    turn, sets its display text to the resolved one, and keeps the context
    items in number, order and URI (absent context stays absent); when
    [toRangeData] leaves the ranges as they are, the result is the turn the
    serializer writes. *)
Theorem prepareChatMessage_keeps (toRangeData : option RangeData -> option RangeData) m :
  speaker (prepareChatMessage toRangeData m) = speaker m /\
  text (prepareChatMessage toRangeData m) = text m /\
  error (prepareChatMessage toRangeData m) = error m /\
  displayText (prepareChatMessage toRangeData m) = getDisplayText m /\
  (List.map uri <$> contextFiles (prepareChatMessage toRangeData m))
  = (List.map uri <$> contextFiles m) /\
  ((forall item items, contextFiles m = Some items -> item ∈ items ->
      toRangeData (range item) = range item) ->
   prepareChatMessage toRangeData m = toSerializedInteractionMessage m).
Proof.
  repeat split.
  - unfold prepareChatMessage. simpl. destruct (contextFiles m) as [items|]; [|done].
    simpl. f_equal. rewrite List.map_map. done.
  - intros Hid. unfold prepareChatMessage, toSerializedInteractionMessage. f_equal.
    destruct (contextFiles m) as [items|]; [|done]. f_equal.
    specialize (fun item => Hid item items eq_refl).
    induction items as [|item items IH]; [done|]. simpl. f_equal.
    + destruct item as [u rg]. simpl. f_equal. apply (Hid {| uri := u; range := rg |}).
      by left.
    + apply IH. intros item' Hin. apply Hid. by right.
Qed.

End MoreProperties.

(** ** Properties of the panel title *)

Section PanelTitle.
Import ChatHelpers.

Lemma string_of_list_ascii_length (l : list ascii) :
  String.length (string_of_list_ascii l) = length l.
Proof. induction l as [|c l IH]; simpl; [done|by rewrite IH]. Qed.

Lemma string_append_length (a b : string) :
  String.length (a +:+ b) = (String.length a + String.length b)%nat.
Proof. induction a as [|c a IH]; simpl; [done|by rewrite IH]. Qed.

Lemma trimStart_length (l : list ascii) : (length (trimStart l) <= length l)%nat.
Proof.
  induction l as [|c l IH]; simpl; [done|].
  destruct (isWhiteSpace c); simpl; lia.
Qed.

Lemma trim_length (l : list ascii) : (length (trim l) <= length l)%nat.
Proof.
  unfold trim, trimEnd. rewrite length_rev.
  etransitivity; [apply trimStart_length|]. rewrite length_rev. apply trimStart_length.
Qed.

Lemma trimStart_head (c : ascii) (l : list ascii) :
  isWhiteSpace c = false -> trimStart (c :: l) = c :: l.
Proof. intros H. simpl. by rewrite H. Qed.

Lemma trimStart_fixed_head (c : ascii) (l : list ascii) :
  trimStart (c :: l) = c :: l -> isWhiteSpace c = false.
Proof.
  simpl. destruct (isWhiteSpace c); [|done].
  intros H. pose proof (trimStart_length l) as Hlen. rewrite H in Hlen. simpl in Hlen. lia.
Qed.

Lemma trimStart_idempotent (l : list ascii) : trimStart (trimStart l) = trimStart l.
Proof.
  induction l as [|c l IH]; [done|]. simpl.
  destruct (isWhiteSpace c) eqn:Hc; [done|]. by apply trimStart_head.
Qed.

Lemma trimStart_all_white (l : list ascii) :
  Forall (fun c => isWhiteSpace c = true) l -> trimStart l = [].
Proof. induction 1 as [|c l Hc _ IH]; simpl; [done|]. by rewrite Hc. Qed.

Lemma trimStart_decompose (l : list ascii) : exists w, l = w ++ trimStart l.
Proof.
  induction l as [|c l [w IH]]; [by exists []|]. simpl.
  destruct (isWhiteSpace c); [|by exists []].
  exists (c :: w). simpl. congruence.
Qed.

Lemma trimEnd_idempotent (l : list ascii) : trimEnd (trimEnd l) = trimEnd l.
Proof. unfold trimEnd. by rewrite rev_involutive, trimStart_idempotent. Qed.

Lemma trimEnd_keeps_start (l : list ascii) :
  trimStart l = l -> trimStart (trimEnd l) = trimEnd l.
Proof.
  intros Hl.
  assert (Hpre : exists w, l = trimEnd l ++ w).
  { destruct (trimStart_decompose (rev l)) as [w Hw]. exists (rev w).
    unfold trimEnd. rewrite <- rev_app_distr, <- Hw. by rewrite rev_involutive. }
  destruct Hpre as [w Hw].
  destruct (trimEnd l) as [|c t]; [done|].
  apply trimStart_head. rewrite Hw in Hl. by apply trimStart_fixed_head in Hl.
Qed.

Lemma trim_idempotent (l : list ascii) : trim (trim l) = trim l.
Proof.
  unfold trim.
  rewrite (trimEnd_keeps_start (trimStart l)) by apply trimStart_idempotent.
  apply trimEnd_idempotent.
Qed.

Lemma trimEnd_last (l : list ascii) (c : ascii) :
  isWhiteSpace c = false -> trimEnd (l ++ [c]) = l ++ [c].
Proof.
  intros Hc. unfold trimEnd. rewrite rev_app_distr. simpl.
  rewrite Hc. simpl. by rewrite rev_involutive.
Qed.

Lemma matchAt_head (c : ascii) (r : list ascii) x :
  matchAt (c :: r) = Some x -> c = "["%char.
Proof.
  unfold matchAt. destruct r as [|c2 [|c3 r]]; try done.
  destruct (Ascii.eqb_spec c "["%char); done.
Qed.

Lemma replaceAll_links_no_bracket (l : list ascii) :
  Forall (fun c => c <> "["%char) l -> replaceAll_links l = l.
Proof.
  funelim (replaceAll_links l); intros Hl.
  - done.
  - apply Forall_cons in Hl as [Hc _].
    match goal with Hm : matchAt _ = Some _ |- _ =>
      destruct Hc; exact (matchAt_head _ _ _ Hm) end.
  - apply Forall_cons in Hl as [_ Hr]. f_equal.
    match goal with IH : Forall _ r -> _ |- _ => by apply IH end.
Qed.

(** X19. With truncation the title is at most 28 characters long: 25 of the
    text and the three dots. *)
Theorem getChatPanelTitle_length (lastDisplayText : option string) :
  (String.length (getChatPanelTitle lastDisplayText true) <= 28)%nat.
Proof.
  unfold getChatPanelTitle. destruct lastDisplayText as [s|]; [|simpl; lia].
  destruct (JS.truthy (Some s)); cbn [negb]; [|simpl; lia].
  set (t := trim (replaceAll_links (list_ascii_of_string s))).
  destruct (Nat.ltb_spec 25 (length t)).
  - rewrite string_append_length, string_of_list_ascii_length.
    pose proof (trim_length (take 25 t)) as Hlen. rewrite length_take in Hlen.
    simpl. lia.
  - rewrite string_of_list_ascii_length. lia.
Qed.

(** X20. A text in which the character [ does not occur holds no link: its
    title, without truncation, is the trimmed text. A text of white space
    only therefore has the empty title, not New Chat. *)
Theorem getChatPanelTitle_without_links (s : string) :
  s <> "" ->
  Forall (fun c => c <> "["%char) (list_ascii_of_string s) ->
  getChatPanelTitle (Some s) false = string_of_list_ascii (trim (list_ascii_of_string s)) /\
  (Forall (fun c => isWhiteSpace c = true) (list_ascii_of_string s) ->
   forall truncateTitle, getChatPanelTitle (Some s) truncateTitle = "").
Proof.
  intros Hs Hl. unfold getChatPanelTitle.
  rewrite (proj2 (truthy_Some s) Hs). cbn [negb].
  rewrite (replaceAll_links_no_bracket _ Hl). split; [done|].
  intros Hw b. unfold trim. rewrite (trimStart_all_white _ Hw).
  by destruct b.
Qed.

(** X21. The title never starts or ends with white space: trimming it again
    changes nothing, with or without truncation. *)
Theorem getChatPanelTitle_trimmed (lastDisplayText : option string) (truncateTitle : bool) :
  trim (list_ascii_of_string (getChatPanelTitle lastDisplayText truncateTitle))
  = list_ascii_of_string (getChatPanelTitle lastDisplayText truncateTitle).
Proof.
  unfold getChatPanelTitle. destruct lastDisplayText as [s|]; [|done].
  destruct (JS.truthy (Some s)); cbn [negb]; [|done].
  set (t := replaceAll_links (list_ascii_of_string s)).
  assert (Hfull : trim (list_ascii_of_string (string_of_list_ascii (trim t)))
                  = list_ascii_of_string (string_of_list_ascii (trim t))).
  { rewrite list_ascii_of_string_of_list_ascii. apply trim_idempotent. }
  destruct truncateTitle; cbn [negb]; [|done].
  destruct (25 <? length (trim t))%nat; [|done].
  set (x := trim (take 25 (trim t))).
  assert (Hx : trimStart x = x).
  { unfold x, trim. apply trimEnd_keeps_start, trimStart_idempotent. }
  replace (list_ascii_of_string (string_of_list_ascii x +:+ "..."))
    with ((x ++ ["."%char; "."%char]) ++ ["."%char]).
  2:{ rewrite <- (list_ascii_of_string_of_list_ascii ((x ++ _) ++ _)). f_equal.
      rewrite <- app_assoc. simpl. clear.
      induction x as [|c x IH]; simpl; [done|by rewrite IH]. }
  unfold trim. rewrite <- app_assoc.
  replace (trimStart (x ++ ["."%char; "."%char] ++ ["."%char]))
    with (x ++ ["."%char; "."%char] ++ ["."%char]).
  2:{ destruct x as [|c x']; [done|]. symmetry. apply trimStart_head.
      by apply trimStart_fixed_head in Hx. }
  rewrite app_assoc. by apply trimEnd_last.
Qed.

Lemma replaceAll_links_match (l g rest : list ascii) :
  matchAt l = Some (g, rest) -> replaceAll_links l = g ++ replaceAll_links rest.
Proof.
  funelim (replaceAll_links l); intros Hmatch.
  - done.
  - clear Heqcall. congruence.
  - congruence.
Qed.

(** A character a group of the link pattern can hold, the closing character
    [stop] apart. *)
Definition inGroup (stop : ascii) (c : ascii) : Prop :=
  isLineTerminator c = false /\ c <> stop.

Lemma scanClose_found (u rest : list ascii) :
  Forall (inGroup ")"%char) u -> scanClose (u ++ ")"%char :: rest) = Some rest.
Proof.
  induction 1 as [|c u [Hlt Hc] _ IH]; simpl; [done|].
  destruct (Ascii.eqb_spec c ")"%char); [done|]. by rewrite Hlt.
Qed.

Lemma matchTail_found (u rest : list ascii) :
  u <> [] -> Forall (inGroup ")"%char) u ->
  matchTail ("_"%char :: "]"%char :: "("%char :: u ++ ")"%char :: rest) = Some rest.
Proof.
  intros Hu Hall. destruct u as [|c u]; [done|].
  apply Forall_cons in Hall as [[Hlt _] Hall].
  unfold matchTail, matchGroup2. simpl. rewrite Hlt. by apply scanClose_found.
Qed.

Lemma matchTail_not_yet (c : ascii) (g tail : list ascii) :
  Forall (inGroup "("%char) (c :: g) ->
  matchTail (c :: g ++ "_"%char :: "]"%char :: "("%char :: tail) = None.
Proof.
  intros Hall. unfold matchTail.
  assert (Hthird : forall c1 c2 c3 r,
             c3 <> "("%char ->
             (if Ascii.eqb c1 "_" && Ascii.eqb c2 "]" && Ascii.eqb c3 "("
              then matchGroup2 r else None) = None).
  { intros c1 c2 c3 r Hc3. destruct (Ascii.eqb_spec c3 "("%char); [done|].
    by rewrite andb_false_r. }
  destruct g as [|x [|y g]]; cbn [app].
  - by apply Hthird.
  - by apply Hthird.
  - apply Hthird. apply Forall_cons in Hall as [_ Hall].
    apply Forall_cons in Hall as [_ Hall]. apply Forall_cons in Hall as [[_ Hy] _]. done.
Qed.

Lemma scanGroup1_found (g u rest : list ascii) : forall group,
  u <> [] -> Forall (inGroup ")"%char) u -> Forall (inGroup "("%char) g ->
  scanGroup1 group (g ++ "_"%char :: "]"%char :: "("%char :: u ++ ")"%char :: rest)
  = Some (rev group ++ g, rest).
Proof.
  induction g as [|c g IH]; intros group Hu Hall Hg.
  - cbn [app scanGroup1]. rewrite matchTail_found by done. by rewrite app_nil_r.
  - cbn [app scanGroup1]. rewrite matchTail_not_yet by done.
    pose proof Hg as [[Hlt _] Hg']%Forall_cons. rewrite Hlt.
    rewrite IH by done. simpl. by rewrite <- app_assoc.
Qed.

(** X22. A file link at the head of the text, [[_name_](target)], is
    replaced by its name: when the name and the target are not empty, the
    name holds no line terminator and no opening parenthesis, the target no
    line terminator and no closing parenthesis, and the text after the link
    no opening square bracket, the title, without truncation, is the name
    followed by that text, trimmed. *)
Theorem getChatPanelTitle_link (g u rest : list ascii) :
  g <> [] -> u <> [] ->
  Forall (inGroup "("%char) g -> Forall (inGroup ")"%char) u ->
  Forall (fun c => c <> "["%char) rest ->
  getChatPanelTitle
    (Some (string_of_list_ascii
             ("["%char :: "_"%char :: g
                ++ "_"%char :: "]"%char :: "("%char :: u ++ ")"%char :: rest)))
    false
  = string_of_list_ascii (trim (g ++ rest)).
Proof.
  intros Hg Hu Hgall Huall Hrest. unfold getChatPanelTitle.
  assert (JS.truthy (Some (string_of_list_ascii
             ("["%char :: "_"%char :: g
                ++ "_"%char :: "]"%char :: "("%char :: u ++ ")"%char :: rest))) = true)
    as -> by done.
  cbn [negb]. rewrite list_ascii_of_string_of_list_ascii.
  destruct g as [|c g]; [done|].
  pose proof Hgall as [[Hlt _] Hgall']%Forall_cons.
  rewrite (replaceAll_links_match _ (c :: g) rest).
  - by rewrite (replaceAll_links_no_bracket _ Hrest).
  - unfold matchAt. cbn [app]. rewrite Hlt. simpl.
    by rewrite scanGroup1_found.
Qed.

End PanelTitle.

(** ** Properties of openFile *)

Lemma roundToDouble_exact (z : Z) : Z.abs z <= 2 ^ 53 -> OpenFile.roundToDouble z = z.
Proof.
  intros Hz. unfold OpenFile.roundToDouble. cbv zeta.
  by destruct (Z.leb_spec (Z.abs z) (2 ^ 53)); [|lia].
Qed.

(** Past [2^53] the additions of [openFile] round: one below [-(2^53)] is
    [-(2^53)] again, so that column would be shown in itself. *)
Example openFile_rounds :
  OpenFile.sub_number (- 2 ^ 53) 1 = - 2 ^ 53 /\
  OpenFile.add_number (2 ^ 53 + 2) 1 = 2 ^ 53 + 4 /\
  OpenFile.sub_number (2 ^ 53 + 2) 1 = 2 ^ 53.
Proof. by vm_compute. Qed.

(** X23. When the current view column is given, is not 0 and is a safe
    integer (strictly between [-(2^53)] and [2^53], as every member of
    [vscode.ViewColumn] is), the document that was opened is shown in a
    column next to it, never in the current column and never in column 0:
    the column before it, or the second column when the current one is the
    first. Without a current column, or with column 0, it is shown beside the
    active editor. *)
Theorem openFile_viewColumn (Beside : Z) (uri : string) (range : option RangeData)
    (currentViewColumn : option Z) :
  (forall c, currentViewColumn = Some c -> - 2 ^ 53 < c < 2 ^ 53) ->
  exists options,
    OpenFile.openFile Beside uri range currentViewColumn
    = [ OpenFile.OpenTextDocument uri; OpenFile.ShowTextDocument uri options ] /\
    match currentViewColumn with
    | Some c =>
        if c =? 0 then OpenFile.viewColumn options = Beside
        else OpenFile.viewColumn options <> 0 /\
             OpenFile.viewColumn options <> c /\
             (OpenFile.viewColumn options = c - 1 \/
              (c = 1 /\ OpenFile.viewColumn options = 2))
    | None => OpenFile.viewColumn options = Beside
    end.
Proof.
  intros Hsafe. eexists. split; [reflexivity|]. cbn [OpenFile.viewColumn].
  destruct currentViewColumn as [c|]; [|done].
  specialize (Hsafe c eq_refl).
  destruct (Z.eqb_spec c 0); [done|].
  unfold OpenFile.sub_number, OpenFile.add_number.
  rewrite !roundToDouble_exact by lia.
  unfold OpenFile.or_number. destruct (Z.eqb_spec (c - 1) 0); lia.
Qed.

(** ** Properties of the Ollama model helpers *)

Lemma getModelHelpers_cases (model : string) :
  Ollama.getModelHelpers model = Ollama.CodeLlama \/
  Ollama.getModelHelpers model = Ollama.DeepseekCoder \/
  Ollama.getModelHelpers model = Ollama.StarCoder \/
  Ollama.getModelHelpers model = Ollama.DefaultOllamaModel.
Proof.
  unfold Ollama.getModelHelpers.
  destruct (Ollama.includes model "codellama"); [by left|].
  destruct (Ollama.includes model "deepseek-coder"); [by right; left|].
  destruct (Ollama.includes model "starcoder"); [by right; right; left|].
  by right; right; right.
Qed.

Lemma string_append_assoc (a b c : string) : (a +:+ b) +:+ c = a +:+ (b +:+ c).
Proof.
  induction a as [|x a IH]; [done|].
  change (String x ((a +:+ b) +:+ c) = String x (a +:+ (b +:+ c))). by rewrite IH.
Qed.

Lemma string_append_nil_r (a : string) : a +:+ "" = a.
Proof.
  induction a as [|x a IH]; [done|].
  change (String x (a +:+ "") = String x a). by rewrite IH.
Qed.

(** X24. For every model name, the two flags of [getRequestOptions] change
    [num_predict] and [stop] only: [num_predict] is 256 when either flag is
    set and 30 otherwise, and the sampling parameters are those of the call
    without flags. *)
Theorem getRequestOptions_flags (model : string) (isMultiline isDynamicMultiline : bool) :
  let options flagM flagD :=
    Ollama.getRequestOptions (Ollama.getModelHelpers model) flagM flagD in
  Ollama.num_predict (options isMultiline isDynamicMultiline)
  = (if isMultiline || isDynamicMultiline then 256 else 30) /\
  Ollama.temperature (options isMultiline isDynamicMultiline)
  = Ollama.temperature (options false false) /\
  Ollama.top_k (options isMultiline isDynamicMultiline)
  = Ollama.top_k (options false false) /\
  Ollama.top_p (options isMultiline isDynamicMultiline)
  = Ollama.top_p (options false false) /\
  Ollama.num_gpu (options isMultiline isDynamicMultiline)
  = Ollama.num_gpu (options false false) /\
  Ollama.repeat_penalty (options isMultiline isDynamicMultiline)
  = Ollama.repeat_penalty (options false false).
Proof.
  cbv zeta.
  destruct (getModelHelpers_cases model) as [-> | [-> | [-> | ->]]];
    by destruct isMultiline, isDynamicMultiline.
Qed.

(** X25. [isDynamicMultiline] overrides [isMultiline]: with it the options
    are the same whatever [isMultiline] is, and no stop sequence holds a
    line feed, for every model name. *)
Theorem getRequestOptions_dynamic (model : string) (isMultiline : bool) :
  Ollama.getRequestOptions (Ollama.getModelHelpers model) isMultiline true
  = Ollama.getRequestOptions (Ollama.getModelHelpers model) false true /\
  Forall (fun s => Ollama.includes s Ollama.LF = false)
    (Ollama.stop (Ollama.getRequestOptions (Ollama.getModelHelpers model) isMultiline true)).
Proof.
  destruct (getModelHelpers_cases model) as [-> | [-> | [-> | ->]]];
    destruct isMultiline; (split; [reflexivity|]);
    repeat (constructor; [reflexivity|]); constructor.
Qed.

(** X26. The special tokens of the model always stop the generation. For
    every model name and flags, the stop sequences are line-feed sequences
    followed by the special tokens of the model the name selects:
    [<PRE>], [<SUF>], [<MID>], [<EOT>] for a name that holds [codellama];
    otherwise [<｜fim▁begin｜>], [<｜fim▁hole｜>], [<｜fim▁end｜>] for one that
    holds [deepseek-coder]; otherwise [<fim_prefix>], [<fim_suffix>],
    [<fim_middle>], [<|endoftext|>] for one that holds [starcoder]; and the
    Code Llama tokens again for any other name. Without flags there is
    exactly one line-feed sequence, a single line feed; in the dynamic
    multi-line mode there is none. *)
Theorem getRequestOptions_stop (model : string) (isMultiline isDynamicMultiline : bool) :
  exists lineStops tokens,
    Ollama.stop
      (Ollama.getRequestOptions (Ollama.getModelHelpers model) isMultiline isDynamicMultiline)
    = lineStops ++ tokens /\
    tokens
    = (if Ollama.includes model "codellama" then ["<PRE>"; "<SUF>"; "<MID>"; "<EOT>"]
       else if Ollama.includes model "deepseek-coder"
         then ["<｜fim▁begin｜>"; "<｜fim▁hole｜>"; "<｜fim▁end｜>"]
       else if Ollama.includes model "starcoder"
         then ["<fim_prefix>"; "<fim_suffix>"; "<fim_middle>"; "<|endoftext|>"]
       else ["<PRE>"; "<SUF>"; "<MID>"; "<EOT>"]) /\
    tokens
    = Ollama.stop (Ollama.getRequestOptions (Ollama.getModelHelpers model) false true) /\
    Forall (fun s => s = Ollama.LF \/ s = Ollama.LF +:+ Ollama.LF) lineStops /\
    (isMultiline = false -> isDynamicMultiline = false -> lineStops = [Ollama.LF]) /\
    (isDynamicMultiline = true -> lineStops = []).
Proof.
  unfold Ollama.getModelHelpers.
  destruct (Ollama.includes model "codellama");
    [|destruct (Ollama.includes model "deepseek-coder");
      [|destruct (Ollama.includes model "starcoder")]];
    destruct isMultiline, isDynamicMultiline;
    first [ exists []; eexists; split; [|split; [reflexivity|]]; [reflexivity|]
          | exists [Ollama.LF]; eexists; split; [|split; [reflexivity|]]; [reflexivity|]
          | exists [Ollama.LF +:+ Ollama.LF]; eexists;
            split; [|split; [reflexivity|]]; [reflexivity|] ];
    (split; [reflexivity|]);
    (split; [repeat (constructor; [first [by left | by right]|]); constructor|]);
    by split.
Qed.

(** X27. For every model name and prompt context, the prompt holds the
    context and, after it, the text before the cursor. *)
Theorem getPrompt_holds_prefix (model : string) (p : Ollama.OllamaPromptContext) :
  exists a b c,
    Ollama.getPrompt (Ollama.getModelHelpers model) p
    = a +:+ Ollama.context p +:+ b +:+ Ollama.prefix p +:+ c.
Proof.
  destruct (getModelHelpers_cases model) as [-> | [-> | [-> | ->]]];
    cbv [Ollama.getPrompt Ollama.CodeLlama Ollama.DeepseekCoder Ollama.StarCoder
         Ollama.DefaultOllamaModel].
  - destruct (Ollama.isInfill p).
    + exists "<PRE> ", (Ollama.currentFileNameComment p),
        (" <SUF>" +:+ Ollama.suffix p +:+ " <MID>").
      by rewrite !string_append_assoc.
    + exists "", (Ollama.currentFileNameComment p), "".
      by rewrite string_append_nil_r.
  - exists "<｜fim▁begin｜>", (Ollama.currentFileNameComment p),
      ("<｜fim▁hole｜>" +:+ Ollama.suffix p +:+ "<｜fim▁end｜>").
    by rewrite !string_append_assoc.
  - exists "<fim_prefix>", "",
      ("<fim_suffix>" +:+ Ollama.suffix p +:+ "<fim_middle>").
    by rewrite !string_append_assoc.
  - exists "", (Ollama.currentFileNameComment p), "".
    by rewrite string_append_nil_r.
Qed.

(** X28. The file name comment never reaches a StarCoder prompt: for a model
    name that selects StarCoder, two contexts with the same [context],
    [prefix] and [suffix] give the same prompt. *)
Theorem getPrompt_starcoder_no_comment (model : string) (p p' : Ollama.OllamaPromptContext) :
  Ollama.includes model "codellama" = false ->
  Ollama.includes model "deepseek-coder" = false ->
  Ollama.includes model "starcoder" = true ->
  Ollama.context p = Ollama.context p' ->
  Ollama.prefix p = Ollama.prefix p' ->
  Ollama.suffix p = Ollama.suffix p' ->
  Ollama.getPrompt (Ollama.getModelHelpers model) p
  = Ollama.getPrompt (Ollama.getModelHelpers model) p'.
Proof.
  intros H1 H2 H3 Hc Hp Hs. unfold Ollama.getModelHelpers. rewrite H1, H2, H3.
  simpl. by rewrite Hc, Hp, Hs.
Qed.

(** X29. Only fill-in-the-middle prompts use the text after the cursor: when
    the model name holds neither deepseek-coder nor starcoder, or holds
    codellama, and the request is not an infill, the prompt is the context,
    the file name comment and the prefix, with no marker and no suffix; and
    a model name that holds codellama gets the default request options
    whatever else it holds. *)
Theorem getPrompt_without_infill (model : string) (p : Ollama.OllamaPromptContext) :
  (Ollama.includes model "codellama" = true \/
   (Ollama.includes model "deepseek-coder" = false /\
    Ollama.includes model "starcoder" = false)) ->
  (Ollama.isInfill p = false ->
   Ollama.getPrompt (Ollama.getModelHelpers model) p
   = Ollama.context p +:+ Ollama.currentFileNameComment p +:+ Ollama.prefix p) /\
  Ollama.getRequestOptions (Ollama.getModelHelpers model)
  = Ollama.getRequestOptions Ollama.DefaultOllamaModel.
Proof.
  intros Hmodel. unfold Ollama.getModelHelpers.
  destruct (Ollama.includes model "codellama").
  - split; [|done]. simpl. by intros ->.
  - destruct Hmodel as [|[-> ->]]; done.
Qed.

(** ** The properties at concrete inputs *)

Section Examples.
#[local] Existing Instance demo.

Ltac concrete_alternating :=
  let i := fresh "i" in
  let m := fresh "m" in
  intros i m; do 4 (destruct i as [|i]; [simpl; by intros [= <-]|]); simpl; done.

(** C1, as stated, fails on the empty transcript: the call succeeds and
    leaves an assistant turn at index 0. *)
Lemma addErrorAsBotMessage_empty_breaks_alternation :
  messages (demoModel []) = [] /\
  fst (addErrorAsBotMessage "boom" (demoModel [])) = Normal tt /\
  ~ alternating (messages (snd (addErrorAsBotMessage "boom" (demoModel [])))).
Proof.
  split; [done|]. split; [done|].
  intros H. by specialize (H 0%nat _ eq_refl).
Qed.

Lemma addErrorAsBotMessage_recovers_example :
  exists this',
    addErrorAsBotMessage "boom" (demoModel [demoHuman "hi"]) = (Normal tt, this') /\
    alternating (messages this').
Proof.
  destruct (addErrorAsBotMessage_recovers (demoModel [demoHuman "hi"]) "boom")
    as (this' & Hrun & _ & Halt).
  exists this'. split; [exact Hrun|].
  apply Halt; [discriminate|concrete_alternating].
Defined.

(** C2, as stated, fails when the run starts with [addBotMessage]: nothing
    throws and index 0 holds an assistant turn. *)
Lemma addBotMessage_first_breaks_alternation :
  messages (demoModel []) = [] /\
  fst (calls [CallAddBotMessage (textOnly "hello") None] (demoModel [])) = Normal tt /\
  ~ alternating
      (messages (snd (calls [CallAddBotMessage (textOnly "hello") None] (demoModel [])))).
Proof.
  split; [done|]. split; [done|].
  intros H. by specialize (H 0%nat _ eq_refl).
Qed.

Lemma calls_alternate_example :
  humanFirst scenario = true /\
  fst (calls scenario (demoModel [])) = Normal tt /\
  alternating (messages (snd (calls scenario (demoModel [])))).
Proof.
  split; [reflexivity|]. split; [reflexivity|].
  exact (calls_alternate scenario (demoModel []) eq_refl eq_refl eq_refl).
Defined.

Lemma error_then_answer_example :
  messages
    (snd (bind (addErrorAsBotMessage "boom")
            (fun _ => addBotMessage (textOnly "answer") None)
            (demoModel [demoHuman "question"])))
  = [ demoHuman "question";
      {| speaker := assistant; text := Some "answer"; displayText := None;
         contextFiles := None; error := Some "Error: boom" |} ].
Proof.
  rewrite (error_then_answer (demoModel [demoHuman "question"]) "boom" "answer" None
             [] (demoHuman "question") eq_refl eq_refl).
  reflexivity.
Defined.

Lemma setLastMessageContext_filters_example :
  exists this',
    setLastMessageContext demoItems (demoModel [demoHuman "question"]) = (Normal tt, this') /\
    contextFiles <$> last (messages this')
    = Some (Some [ {| uri := "src/a.ts"; range := None |};
                   {| uri := "src/c.ts"; range := None |} ]) /\
    setLastMessageContext demoItems this' = (Normal tt, this').
Proof.
  destruct (setLastMessageContext_filters (demoModel [demoHuman "question"]) demoItems
              [] (demoHuman "question") eq_refl eq_refl)
    as (kept & this' & Hrun & _ & Hlast & Hkept & Hagain).
  exists this'. split; [exact Hrun|]. split; [|exact Hagain].
  rewrite Hlast. do 2 f_equal.
  apply (withoutIgnored_unique demoItems); [exact Hkept|].
  repeat (first [ apply withoutIgnored_keep; [reflexivity|]
                | apply withoutIgnored_drop; [reflexivity|] ]).
  apply withoutIgnored_nil.
Defined.

Lemma removeMessagesFromIndex_guarded_example :
  (exists msg,
      removeMessagesFromIndex 1 human (demoModel [demoHuman "hi"; demoAssistant "hello"])
      = (Throw msg, demoModel [demoHuman "hi"; demoAssistant "hello"])) /\
  (exists this',
      removeMessagesFromIndex 2 human
        (demoModel [demoHuman "hi"; demoAssistant "hello"; demoHuman "bye"])
      = (Normal tt, this') /\
      messages this' = [demoHuman "hi"; demoAssistant "hello"]) /\
  (exists this',
      removeMessagesFromIndex (-1) human
        (demoModel [demoHuman "hi"; demoAssistant "hello"; demoHuman "bye"])
      = (Normal tt, this') /\
      messages this' = [demoHuman "hi"; demoAssistant "hello"]).
Proof.
  split; [|split].
  - apply (proj1 (proj2 (removeMessagesFromIndex_guarded
                           (demoModel [demoHuman "hi"; demoAssistant "hello"]) 1 human))).
    intros k m [Hk [Hidx|Hidx]] Hm; simpl in *; [|lia].
    assert (k = 1%nat) as -> by lia. simpl in Hm. by injection Hm as <-.
  - destruct (proj2 (proj2 (removeMessagesFromIndex_guarded
                (demoModel [demoHuman "hi"; demoAssistant "hello"; demoHuman "bye"])
                2 human)) 2%nat (demoHuman "bye"))
      as (this' & Hrun & Hmsgs & _);
      [split; [simpl; lia|by left]|reflexivity|reflexivity|].
    exists this'. split; [exact Hrun|exact Hmsgs].
  - destruct (proj2 (proj2 (removeMessagesFromIndex_guarded
                (demoModel [demoHuman "hi"; demoAssistant "hello"; demoHuman "bye"])
                (-1) human)) 2%nat (demoHuman "bye"))
      as (this' & Hrun & Hmsgs & _);
      [split; [simpl; lia|by right]|reflexivity|reflexivity|].
    exists this'. split; [exact Hrun|exact Hmsgs].
Defined.

(** C7, as stated, fails for the empty custom title: it has been set, and
    the title is derived from the messages all the same. *)
Lemma empty_custom_title_is_ignored :
  customChatTitle (snd (setCustomChatTitle "" (demoModel []))) = Some "" /\
  fst (getChatTitle (snd (setCustomChatTitle "" (demoModel [])))) = Normal "New Chat" /\
  fst (getChatTitle (snd (setCustomChatTitle "" (demoModel [])))) <> Normal "".
Proof. by repeat split. Qed.

Lemma getChatTitle_cases_example :
  fst (getChatTitle (snd (setCustomChatTitle "Foo" (demoModel [demoHuman "question"]))))
  = Normal "Foo".
Proof.
  rewrite (proj1 (getChatTitle_cases
                    (snd (setCustomChatTitle "Foo" (demoModel [demoHuman "question"]))))
             "Foo" eq_refl); [reflexivity|discriminate].
Defined.

Lemma serialization_pairs_turns_example :
  exists r h',
    toSerializedChatTranscript demoStore (demoModel [demoHuman "only"]) = (Normal r, h') /\
    length (interactions r) = 1%nat.
Proof.
  destruct (proj1 serialization_pairs_turns demoStore (demoModel [demoHuman "only"]))
    as (r & h' & Hrun & Hlen & _); [concrete_alternating|].
  exists r, h'. split; [exact Hrun|exact Hlen].
Defined.

Lemma addErrorAsBotMessage_keeps_fields_example :
  exists m',
    addErrorAsBotMessage "boom" (demoModel [demoHuman "question"; demoAssistant "partial"])
    = (Normal tt, demoModel [demoHuman "question"; m']) /\
    text m' = Some "partial" /\ displayText m' = Some "partial" /\
    error m' = Some "Error: boom".
Proof.
  destruct (addErrorAsBotMessage_keeps_fields
              (demoModel [demoHuman "question"; demoAssistant "partial"]) "boom"
              [demoHuman "question"] (demoAssistant "partial") eq_refl eq_refl)
    as (m' & Hrun & Ht & Hd & _ & _ & He).
  exists m'. split; [exact Hrun|]. split; [exact Ht|]. split; [exact Hd|exact He].
Defined.

Lemma selectedRepos_isolated_example :
  exists (copy : loc) (h3 : Store),
    getSelectedRepos demoMutatedStore (snd demoAfterSet)
    = (Some copy, h3, snd demoAfterSet) /\
    reposValue h3 copy = [demoRepo].
Proof.
  assert (Hlive : liveArray demoStore 2%positive).
  { unfold liveArray. change (array_at demoStore 2%positive) with [1%positive].
    constructor; [|constructor]. apply elem_of_dom. by eexists. }
  destruct (proj1 (selectedRepos_isolated demoStore (demoModel []))
              2%positive (fst demoAfterSet) (snd demoAfterSet) Hlive
              (surjective_pairing demoAfterSet))
    as [Hfresh Hread].
  destruct (Hread demoMutatedStore) as (copy & h3 & Hget & Hval & _).
  { apply outsideWrites_step; [apply outsideWrites_refl|].
    intros Hin. apply (Hfresh _ Hin). apply elem_of_dom. by eexists. }
  exists copy, h3. split; [exact Hget|]. rewrite Hval. reflexivity.
Defined.

(** C4, at the failing input: the transcript has no assistant turn, the
    declared result type is [number | undefined] and the claim expects
    [undefined]; the method returns the number [-1]. *)
Example getLastSpeakerMessageIndex_absent :
  fst (getLastSpeakerMessageIndex assistant (demoModel [demoHuman "hi"]))
  = Normal (Some (-1)).
Proof. reflexivity. Qed.

End Examples.

(** ** The further properties at concrete inputs *)

Section MoreExamples.
#[local] Existing Instance demo.

Ltac concrete_alternation :=
  let i := fresh "i" in
  let m := fresh "m" in
  intros i m; do 4 (destruct i as [|i]; [simpl; by intros [= <-]|]); simpl; done.

Lemma addHumanMessage_twice_rejected_example :
  addHumanMessage (textOnly "again") (demoModel [demoHuman "first"])
  = (Throw "Cannot add a user message after a user message",
     demoModel [demoHuman "first"]).
Proof.
  exact (addHumanMessage_twice_rejected (demoModel []) (demoModel [demoHuman "first"])
           (textOnly "first") (textOnly "again") eq_refl).
Defined.

Lemma addBotMessage_twice_rejected_example :
  fst (addBotMessage (textOnly "second") None
         (snd (addBotMessage (textOnly "first") None (demoModel [demoHuman "question"]))))
  = Throw "Cannot add a bot message after a bot message".
Proof.
  exact (f_equal fst
           (addBotMessage_twice_rejected (demoModel [demoHuman "question"])
              (snd (addBotMessage (textOnly "first") None
                      (demoModel [demoHuman "question"])))
              (textOnly "first") (textOnly "second") None None eq_refl eq_refl)).
Defined.

Lemma addBotMessage_empty_text_replaced_example :
  exists l placeholder,
    messages (snd (addBotMessage (textOnly "") None (demoModel [demoHuman "question"])))
    = l ++ [placeholder] /\
    addBotMessage (textOnly "answer") None
      (snd (addBotMessage (textOnly "") None (demoModel [demoHuman "question"])))
    = (Normal tt,
       with_messages
         (snd (addBotMessage (textOnly "") None (demoModel [demoHuman "question"])))
         (l ++ [assistantTurn (textOnly "answer") None (error placeholder)])).
Proof.
  exact (addBotMessage_empty_text_replaced (demoModel [demoHuman "question"]) _
           (textOnly "") (textOnly "answer") None None eq_refl eq_refl).
Defined.

Lemma addBotMessage_overrides_fields_example :
  addBotMessage
    {| init_text := Some "answer"; init_displayText := Some "shown";
       init_contextFiles := None; init_error := Some "lost" |}
    None (demoModel [demoHuman "question"])
  = addBotMessage (textOnly "answer") None (demoModel [demoHuman "question"]).
Proof.
  exact (addBotMessage_overrides_fields (demoModel [demoHuman "question"]) _
           (textOnly "answer") None eq_refl eq_refl).
Defined.

Lemma setLastMessageContext_rejected_example :
  setLastMessageContext demoItems (demoModel [])
  = (Throw "no last message", demoModel []).
Proof.
  exact (proj1 (setLastMessageContext_rejected (demoModel []) demoItems) eq_refl).
Defined.

Lemma setLastMessageContext_overwrites_example :
  setLastMessageContext []
    (snd (setLastMessageContext demoItems (demoModel [demoHuman "question"])))
  = setLastMessageContext [] (demoModel [demoHuman "question"]).
Proof.
  exact (setLastMessageContext_overwrites (demoModel [demoHuman "question"]) _
           demoItems [] eq_refl).
Defined.

Lemma mutate_atomic_example :
  snd (mutate (AddBotMessage (textOnly "more") None)
         (demoModel [demoHuman "question"; demoAssistant "answer"]))
  = demoModel [demoHuman "question"; demoAssistant "answer"].
Proof.
  apply (mutate_atomic (AddBotMessage (textOnly "more") None)
           (demoModel [demoHuman "question"; demoAssistant "answer"]) _
           "Cannot add a bot message after a bot message").
  reflexivity.
Defined.

Lemma mutate_keeps_alternation_example :
  alternating
    (messages (snd (mutate (@AddErrorAsBotMessage demo "boom") (demoModel [demoHuman "question"])))).
Proof.
  apply (mutate_keeps_alternation (@AddErrorAsBotMessage demo "boom")
           (demoModel [demoHuman "question"])).
  - concrete_alternation.
  - discriminate.
  - reflexivity.
Defined.

Lemma mutate_push_frame_example :
  messages (snd (mutate (AddHumanMessage (textOnly "next"))
                   (demoModel [demoHuman "question"; demoAssistant "answer"])))
    !! 0%nat
  = Some (demoHuman "question").
Proof.
  refine (proj2 (proj2 (proj2
            (mutate_push_frame (AddHumanMessage (textOnly "next"))
               (demoModel [demoHuman "question"; demoAssistant "answer"])
               (snd (mutate (AddHumanMessage (textOnly "next"))
                       (demoModel [demoHuman "question"; demoAssistant "answer"])))
               eq_refl eq_refl))) 0%nat _).
  simpl. lia.
Defined.

Lemma addHumanMessage_after_truncation_example :
  fst (addHumanMessage (textOnly "edited")
         (snd (removeMessagesFromIndex 2 human
                 (demoModel [demoHuman "hi"; demoAssistant "hello"; demoHuman "bye"]))))
  = Normal tt.
Proof.
  refine (f_equal fst
            (addHumanMessage_after_truncation
               (demoModel [demoHuman "hi"; demoAssistant "hello"; demoHuman "bye"])
               (snd (removeMessagesFromIndex 2 human
                       (demoModel [demoHuman "hi"; demoAssistant "hello"; demoHuman "bye"])))
               2 (textOnly "edited") _ eq_refl)).
  concrete_alternation.
Defined.

Lemma getChatTitle_is_panel_title_example :
  exists r,
    getLastHumanMessage (demoModel [demoHuman "question"])
    = (Normal r, demoModel [demoHuman "question"]) /\
    getChatTitle (demoModel [demoHuman "question"])
    = (Normal (ChatHelpers.getChatPanelTitle (r ≫= getDisplayText) true),
       demoModel [demoHuman "question"]).
Proof.
  exact (getChatTitle_is_panel_title (demoModel [demoHuman "question"]) eq_refl).
Defined.

Lemma prepareChatMessage_keeps_example :
  prepareChatMessage (fun r => r) (demoHuman "question")
  = toSerializedInteractionMessage (demoHuman "question").
Proof.
  apply (proj2 (proj2 (proj2 (proj2 (proj2
           (prepareChatMessage_keeps (fun r => r) (demoHuman "question"))))))).
  reflexivity.
Defined.

Lemma getChatPanelTitle_without_links_example :
  ChatHelpers.getChatPanelTitle (Some "  explain this  ") false = "explain this".
Proof.
  rewrite (proj1 (getChatPanelTitle_without_links "  explain this  " ltac:(discriminate)
                    ltac:(repeat constructor; discriminate))).
  reflexivity.
Defined.

Lemma getChatPanelTitle_link_example :
  ChatHelpers.getChatPanelTitle (Some "[_@a.ts_](command:open) explain this") false
  = "@a.ts explain this".
Proof.
  exact (getChatPanelTitle_link
           (list_ascii_of_string "@a.ts") (list_ascii_of_string "command:open")
           (list_ascii_of_string " explain this")
           ltac:(discriminate) ltac:(discriminate)
           ltac:(repeat constructor; discriminate)
           ltac:(repeat constructor; discriminate)
           ltac:(repeat constructor; discriminate)).
Defined.

Lemma openFile_viewColumn_example :
  (exists options,
      OpenFile.openFile (-2) "a.ts" None (Some 1)
      = [ OpenFile.OpenTextDocument "a.ts"; OpenFile.ShowTextDocument "a.ts" options ] /\
      OpenFile.viewColumn options = 2) /\
  (exists options,
      OpenFile.openFile (-2) "a.ts" None (Some 3)
      = [ OpenFile.OpenTextDocument "a.ts"; OpenFile.ShowTextDocument "a.ts" options ] /\
      OpenFile.viewColumn options = 2).
Proof.
  split.
  - destruct (openFile_viewColumn (-2) "a.ts" None (Some 1)) as (options & Hrun & Hcol).
    + intros c [= <-]. by vm_compute.
    + exists options. split; [exact Hrun|]. simpl in Hcol. lia.
  - destruct (openFile_viewColumn (-2) "a.ts" None (Some 3)) as (options & Hrun & Hcol).
    + intros c [= <-]. by vm_compute.
    + exists options. split; [exact Hrun|]. simpl in Hcol. lia.
Defined.

Lemma getPrompt_starcoder_no_comment_example :
  Ollama.getPrompt (Ollama.getModelHelpers "starcoder2:7b") (demoPrompt "// a.ts" true)
  = "<fim_prefix>ctx;let x = <fim_suffix>;<fim_middle>".
Proof.
  exact (eq_trans
           (getPrompt_starcoder_no_comment "starcoder2:7b"
              (demoPrompt "// a.ts" true) (demoPrompt "" true)
              eq_refl eq_refl eq_refl eq_refl eq_refl eq_refl)
           eq_refl).
Defined.

Lemma getPrompt_without_infill_example :
  Ollama.getPrompt (Ollama.getModelHelpers "codellama:7b-code") (demoPrompt "// a.ts;" false)
  = "ctx;// a.ts;let x = ".
Proof.
  exact (eq_trans
           (proj1 (getPrompt_without_infill "codellama:7b-code"
                     (demoPrompt "// a.ts;" false) (or_introl eq_refl))
              eq_refl)
           eq_refl).
Defined.

Lemma serialization_copies_repos_example :
  exists r (h' : Store) (copy : loc),
    toSerializedChatTranscript (fst demoAfterSet) (snd demoAfterSet) = (Normal r, h') /\
    enhancedContext r = Some {| ec_selectedRepos := copy |} /\
    reposValue h' copy = [demoRepo].
Proof.
  assert (E : exists r h',
             toSerializedChatTranscript (fst demoAfterSet) (snd demoAfterSet)
             = (Normal r, h')).
  { eexists _, _. vm_compute. reflexivity. }
  destruct E as (r & h' & E).
  pose proof (serialization_copies_repos (fst demoAfterSet) h' (snd demoAfterSet) r E) as H.
  assert (Eown : selectedRepos (snd demoAfterSet) = Some 4%positive) by reflexivity.
  rewrite Eown in H.
  destruct H as (copy & Hctx & Hval & _).
  { unfold liveArray. change (array_at (fst demoAfterSet) 4%positive) with [3%positive].
    constructor; [|constructor]. apply elem_of_dom. by eexists. }
  exists r, h', copy. split; [exact E|]. split; [exact Hctx|].
  rewrite Hval. reflexivity.
Defined.

End MoreExamples.
